(** * Indicator engine and backtest simulator of the stock simulation backend

    A shallow embedding of [backend/app/indicators.py] and
    [backend/app/backtest.py].

    Numbers.  The program computes on IEEE binary64 values held in pandas
    columns.  They are modelled by the type [float]: a missing value
    ([NaN]), the two infinities, or a finite number.  Finite numbers are
    exact rationals ([Qc]), so rounding, overflow and the sign of zero are
    outside the model; the special values follow the IEEE rules that numpy
    applies ([inf - inf] is [NaN], [x / inf] is [0], comparisons with [NaN]
    are false, ...).

    Dtypes.  A pandas column has a dtype.  The columns of prices and all
    the columns the program computes from them are float64.  The volume
    column is float64, int64 or uint64: the CSV reader gives a column of
    whole numbers the dtype int64 (uint64 when a value is [2^63] or more),
    and on such a column numpy computes on 64-bit integers, which wrap
    around.  The frame records the dtype of its volume column
    ([volume_dtype]); line 33 (the running sum of the volume) and
    lines 46-47 (the signed volume and its running sum) follow it.  The
    cells of an integer column are held as the numbers they are.

    Frames.  A pandas DataFrame is an index (one timestamp per row) and a
    dictionary from column names to columns.  A lookup of an absent column
    or of a position out of range raises in Python; the embedding returns
    [None] there. *)

From Stdlib Require Import QArith Qcanon Qround Lqa.
From stdpp Require Import base numbers option list strings gmap sorting.

Local Open Scope Qc_scope.

(** ** Floating-point values *)

Inductive float : Type :=
| NaN
| NInf
| Fin (q : Qc)
| PInf.

Global Instance float_eq_dec : EqDecision float.
Proof. solve_decision. Defined.

(** An integer literal of the program as a rational and as a float. *)
Definition zq (n : Z) : Qc := Qc_of_Z n.
Definition num (n : Z) : float := Fin (zq n).

Definition isnan (x : float) : bool :=
  match x with NaN => true | _ => false end.

Definition isinf (x : float) : bool :=
  match x with NInf | PInf => true | _ => false end.

Definition fneg (x : float) : float :=
  match x with
  | NaN => NaN
  | NInf => PInf
  | Fin a => Fin (- a)
  | PInf => NInf
  end.

Definition fadd (x y : float) : float :=
  match x, y with
  | NaN, _ | _, NaN => NaN
  | PInf, NInf | NInf, PInf => NaN
  | PInf, _ | _, PInf => PInf
  | NInf, _ | _, NInf => NInf
  | Fin a, Fin b => Fin (a + b)
  end.

Definition fsub (x y : float) : float := fadd x (fneg y).

(** The infinity with the sign of [a], or [NaN] for [a = 0]. *)
Definition signed_inf (a : Qc) (pos neg : float) : float :=
  match a ?= 0 with
  | Gt => pos
  | Lt => neg
  | Eq => NaN
  end.

Definition fmul (x y : float) : float :=
  match x, y with
  | NaN, _ | _, NaN => NaN
  | Fin a, Fin b => Fin (a * b)
  | Fin a, PInf | PInf, Fin a => signed_inf a PInf NInf
  | Fin a, NInf | NInf, Fin a => signed_inf a NInf PInf
  | PInf, PInf | NInf, NInf => PInf
  | PInf, NInf | NInf, PInf => NInf
  end.

Definition fdiv (x y : float) : float :=
  match x, y with
  | NaN, _ | _, NaN => NaN
  | Fin a, Fin b =>
      if decide (b = 0) then signed_inf a PInf NInf else Fin (a / b)
  | Fin _, (PInf | NInf) => Fin 0
  | PInf, Fin b => if decide (b < 0) then NInf else PInf
  | NInf, Fin b => if decide (b < 0) then PInf else NInf
  | (PInf | NInf), (PInf | NInf) => NaN
  end.

Definition fabs (x : float) : float :=
  match x with
  | NaN => NaN
  | NInf | PInf => PInf
  | Fin a => Fin (if decide (a < 0) then - a else a)
  end.

Definition flt (x y : float) : bool :=
  match x, y with
  | NaN, _ | _, NaN => false
  | _, NInf => false
  | NInf, _ => true
  | PInf, _ => false
  | Fin _, PInf => true
  | Fin a, Fin b => bool_decide (a < b)
  end.

Definition fle (x y : float) : bool :=
  match x, y with
  | NaN, _ | _, NaN => false
  | NInf, _ => true
  | _, PInf => true
  | _, NInf => false
  | PInf, _ => false
  | Fin a, Fin b => bool_decide (a ≤ b)
  end.

Definition fgt (x y : float) : bool := flt y x.

Definition feqb (x y : float) : bool :=
  match x, y with
  | NInf, NInf | PInf, PInf => true
  | Fin a, Fin b => bool_decide (a = b)
  | _, _ => false
  end.

(** Python's truth value of a float: everything but zero, [NaN] included. *)
Definition truthy (x : float) : bool := negb (feqb x (num 0)).

(** ** Series: the pandas operations the program uses

    A Series is modelled by the list of its values; the index lives in the
    frame. *)

Abbreviation series := (list float).

(** [s.diff()] *)
Fixpoint diff_from (prev : float) (s : series) : series :=
  match s with
  | [] => []
  | x :: s' => fsub x prev :: diff_from x s'
  end.

Definition diff (s : series) : series :=
  match s with
  | [] => []
  | x :: s' => NaN :: diff_from x s'
  end.

(** [s.shift()] *)
Definition shift (s : series) : series :=
  match s with
  | [] => []
  | _ :: _ => NaN :: removelast s
  end.

(** [s.clip(lower=lo)] and [s.clip(upper=hi)]; a missing value stays
    missing. *)
Definition clip_lower (lo : float) (s : series) : series :=
  (λ x, if flt x lo then lo else x) <$> s.

Definition clip_upper (hi : float) (s : series) : series :=
  (λ x, if fgt x hi then hi else x) <$> s.

(** [s.fillna(v)] *)
Definition fillna (v : float) (s : series) : series :=
  (λ x, if isnan x then v else x) <$> s.

(** [s.replace(to_replace, value)] *)
Definition replace (to_replace value : float) (s : series) : series :=
  (λ x, if feqb x to_replace then value else x) <$> s.

(** [s.replace([np.inf, -np.inf], np.nan)] *)
Definition replace_inf (s : series) : series :=
  (λ x, if isinf x then NaN else x) <$> s.

(** [s.abs()] *)
Definition sabs (s : series) : series := fabs <$> s.

(** Element-wise arithmetic of two aligned series, and of a scalar with a
    series. *)
Definition sadd (s1 s2 : series) : series := zip_with fadd s1 s2.
Definition ssub (s1 s2 : series) : series := zip_with fsub s1 s2.
Definition smul (s1 s2 : series) : series := zip_with fmul s1 s2.
Definition sdiv (s1 s2 : series) : series := zip_with fdiv s1 s2.

(** Comparison of two aligned series: a boolean mask. *)
Definition sgt (s1 s2 : series) : list bool := zip_with fgt s1 s2.
Definition slt (s1 s2 : series) : list bool := zip_with flt s1 s2.
Definition mask_and (m1 m2 : list bool) : list bool := zip_with andb m1 m2.

(** [mask.astype(int)] *)
Definition astype_int (m : list bool) : series :=
  (λ b : bool, if b then num 1 else num 0) <$> m.

(** [s.cumsum()]: missing values are skipped by the running sum and stay
    missing in the result. *)
Fixpoint cumsum_from (acc : float) (s : series) : series :=
  match s with
  | [] => []
  | x :: s' =>
      let acc' := fadd acc (if isnan x then num 0 else x) in
      (if isnan x then NaN else acc') :: cumsum_from acc' s'
  end.

Definition cumsum (s : series) : series := cumsum_from (num 0) s.

(** *** Columns of 64-bit integers

    The result of an int64 operation is reduced modulo [2^64] into the
    range [-2^63 .. 2^63 - 1], that of a uint64 operation into
    [0 .. 2^64 - 1]. *)
Inductive dtype : Type := float64 | int64 | uint64.

Global Instance dtype_eq_dec : EqDecision dtype.
Proof. solve_decision. Defined.

(** The dtype of the result of an arithmetic operation on two arrays:
    int64 with uint64 gives float64. *)
Definition result_type (a b : dtype) : dtype :=
  match a, b with
  | int64, int64 => int64
  | uint64, uint64 => uint64
  | _, _ => float64
  end.

Definition wrap64 (z : Z) : Z := ((z + 2 ^ 63) `mod` 2 ^ 64 - 2 ^ 63)%Z.

Definition wrapu64 (z : Z) : Z := (z `mod` 2 ^ 64)%Z.

(** The integer a cell of an int64 column holds. *)
Definition int_of (x : float) : Z :=
  match x with
  | Fin q => Qfloor q
  | _ => 0%Z
  end.

Definition imul64 (x y : float) : float := num (wrap64 (int_of x * int_of y)).

(** The product of two int64 series. *)
Definition smul_int64 (s1 s2 : series) : series := zip_with imul64 s1 s2.

(** [s.cumsum()] on an int64 series: no value is missing, and the running
    sum wraps around. *)
Fixpoint cumsum_int64_from (acc : Z) (s : series) : series :=
  match s with
  | [] => []
  | x :: s' =>
      let acc' := wrap64 (acc + int_of x) in
      num acc' :: cumsum_int64_from acc' s'
  end.

Definition cumsum_int64 (s : series) : series := cumsum_int64_from 0 s.

Fixpoint cumsum_uint64_from (acc : Z) (s : series) : series :=
  match s with
  | [] => []
  | x :: s' =>
      let acc' := wrapu64 (acc + int_of x) in
      num acc' :: cumsum_uint64_from acc' s'
  end.

Definition cumsum_uint64 (s : series) : series := cumsum_uint64_from 0 s.

(** [s.cumsum()] on a series of the dtype [dt]. *)
Definition cumsum_as (dt : dtype) (s : series) : series :=
  match dt with
  | float64 => cumsum s
  | int64 => cumsum_int64 s
  | uint64 => cumsum_uint64 s
  end.

(** [s.fillna(method='ffill')] and [s.fillna(method='bfill')] *)
Fixpoint ffill_from (last : float) (s : series) : series :=
  match s with
  | [] => []
  | x :: s' =>
      let y := if isnan x then last else x in
      y :: ffill_from y s'
  end.

Definition ffill (s : series) : series := ffill_from NaN s.

Definition bfill (s : series) : series := reverse (ffill (reverse s)).

(** The window operations of pandas ([rolling], [ewm]) hand their input to
    the aggregation routines with infinities turned into missing values. *)
Definition prep_values (s : series) : series :=
  (λ x, if isinf x then NaN else x) <$> s.

(** [s.rolling(window=w, min_periods=minp).mean()]: at every position the
    mean of the present values among the last [w], or missing when fewer
    than [minp] (and at least one) are present. *)
Definition present (s : series) : series :=
  filter (λ x, isnan x = false) s.

Definition fsum (s : series) : float := foldl fadd (num 0) s.

Definition window_mean (minp : nat) (win : series) : float :=
  let obs := present win in
  let nobs := length obs in
  if decide (minp ≤ nobs ∧ 0 < nobs)%nat
  then fdiv (fsum obs) (num (Z.of_nat nobs))
  else NaN.

Definition trailing (w : nat) (t : nat) (s : series) : series :=
  drop (S t - w) (take (S t) s).

Definition rolling_mean (w minp : nat) (s : series) : series :=
  let vals := prep_values s in
  (λ t, window_mean minp (trailing w t vals)) <$> seq 0 (length s).

(** [pd.concat([a, b, c], axis=1).max(axis=1)]: the row-wise maximum of
    the present values, missing when none is present. *)
Definition fmax_skipna (x y : float) : float :=
  if isnan x then y
  else if isnan y then x
  else if flt x y then y else x.

Definition row_max3 (a b c : series) : series :=
  zip_with fmax_skipna (zip_with fmax_skipna a b) c.

(** [s.ewm(com=com, adjust=False).mean()] (with [ignore_na=False] and the
    minimum number of observations [1]).  The routine keeps the running
    average [weighted] and the weight [old_wt] of the past. *)
Record ewm_state : Type := EwmState {
  weighted : float;
  old_wt : Qc;
  nobs : nat
}.

Definition ewm_step (alpha : Qc) (st : ewm_state) (cur : float)
  : ewm_state :=
  let old_wt_factor := 1 - alpha in
  let new_wt := alpha in
  let is_observation := negb (isnan cur) in
  let nobs' := (nobs st + (if is_observation then 1 else 0))%nat in
  if negb (isnan (weighted st)) then
    (* [ignore_na] is false: the past decays at every position *)
    let old_wt' := old_wt st * old_wt_factor in
    if is_observation then
      let w :=
        if negb (feqb (weighted st) cur) then
          fdiv (fadd (fmul (Fin old_wt') (weighted st))
                     (fmul (Fin new_wt) cur))
               (Fin (old_wt' + new_wt))
        else weighted st in
      EwmState w 1 nobs'
    else EwmState (weighted st) old_wt' nobs'
  else if is_observation then EwmState cur (old_wt st) nobs'
  else EwmState (weighted st) (old_wt st) nobs'.

Definition ewm_output (minp : nat) (st : ewm_state) : float :=
  if decide (minp ≤ nobs st)%nat then weighted st else NaN.

Fixpoint ewm_loop (alpha : Qc) (minp : nat) (st : ewm_state) (vals : series)
  : series :=
  match vals with
  | [] => []
  | cur :: vals' =>
      let st' := ewm_step alpha st cur in
      ewm_output minp st' :: ewm_loop alpha minp st' vals'
  end.

Definition ewm_mean_com (com : Qc) (s : series) : series :=
  let alpha := 1 / (1 + com) in
  match prep_values s with
  | [] => []
  | x0 :: vals =>
      let st0 := EwmState x0 1 (if isnan x0 then 0 else 1) in
      ewm_output 1 st0 :: ewm_loop alpha 1 st0 vals
  end.

(** The centre of mass from [span] or from [alpha]; pandas raises
    [ValueError] outside the accepted ranges. *)
Definition com_of_span (span : Z) : option Qc :=
  if decide (span < 1)%Z then None else Some ((zq span - 1) / zq 2).

Definition com_of_alpha (alpha : Qc) : option Qc :=
  if decide (alpha ≤ 0 ∨ 1 < alpha) then None
  else Some ((1 - alpha) / alpha).

(** [s.ewm(span=span, adjust=False).mean()] *)
Definition ewm_mean_span (span : Z) (s : series) : option series :=
  com ← com_of_span span;
  Some (ewm_mean_com com s).

(** [s.ewm(alpha=alpha, adjust=False).mean()] *)
Definition ewm_mean_alpha (alpha : Qc) (s : series) : option series :=
  com ← com_of_alpha alpha;
  Some (ewm_mean_com com s).

(** Arithmetic of a scalar with a series. *)
Definition scalar_add (k : float) (s : series) : series := fadd k <$> s.
Definition scalar_sub (k : float) (s : series) : series := fsub k <$> s.
Definition scalar_mul (k : float) (s : series) : series := fmul k <$> s.
Definition scalar_div (k : float) (s : series) : series := fdiv k <$> s.
Definition sub_scalar (s : series) (k : float) : series := (λ x, fsub x k) <$> s.
Definition mul_scalar (s : series) (k : float) : series := (λ x, fmul x k) <$> s.
Definition div_scalar (s : series) (k : float) : series := (λ x, fdiv x k) <$> s.
Definition gt_scalar (s : series) (k : float) : list bool := (λ x, fgt x k) <$> s.

(** ** Frames *)

Definition timestamp : Type := Z.

Record frame : Type := Frame {
  index : list timestamp;
  columns : gmap string (list float);
  (* the dtype of the column [volume] *)
  volume_dtype : dtype
}.

(** [len(df)] *)
Definition nrows (df : frame) : nat := length (index df).

(** [df[name]]; [KeyError] when the column is absent. *)
Definition getitem (df : frame) (name : string) : option series :=
  columns df !! name.

(** [df[name] = s].  The program assigns no column of the name [volume],
    whose dtype stays. *)
Definition setitem (name : string) (s : series) (df : frame) : frame :=
  Frame (index df) (<[name := s]> (columns df)) (volume_dtype df).

(** [df[name] = k] for a scalar [k] *)
Definition setitem_scalar (name : string) (k : float) (df : frame) : frame :=
  setitem name (replicate (nrows df) k) df.

(** [df.loc[mask, name] = k]; [KeyError] is not raised for a new column,
    but the program only uses it on an existing one. *)
Definition loc_set (mask : list bool) (name : string) (k : float) (df : frame)
  : option frame :=
  col ← getitem df name;
  Some (setitem name (zip_with (λ (m : bool) x, if m then k else x) mask col) df).

(** [df.replace([np.inf, -np.inf], np.nan)]: a new frame.  An int64
    column holds no infinity and keeps its dtype. *)
Definition frame_replace_inf (df : frame) : frame :=
  Frame (index df) (replace_inf <$> columns df) (volume_dtype df).

(** [s.iat[-1]]; [IndexError] on an empty series. *)
Definition iat_last (s : series) : option float := last s.

(** ** indicators.py *)

Definition ema (s : series) (span : Z) : option series :=
  ewm_mean_span span s.

Definition macd (df : frame) (fast slow signal : Z)
  : option (series * series * series) :=
  close ← getitem df "close";
  ema_fast ← ema close fast;
  ema_slow ← ema close slow;
  let macd_line := ssub ema_fast ema_slow in
  macd_signal ← ema macd_line signal;
  let macd_hist := ssub macd_line macd_signal in
  Some (macd_line, macd_signal, macd_hist).

(** [1/length] on Python integers; [ZeroDivisionError] for [length = 0]. *)
Definition one_over (length : Z) : option Qc :=
  if decide (length = 0%Z) then None else Some (1 / zq length).

Definition rsi_up (close : series) : series :=
  fillna (num 0) (clip_lower (num 0) (diff close)).

Definition rsi_down (close : series) : series :=
  scalar_mul (num (-1)) (fillna (num 0) (clip_upper (num 0) (diff close))).

Definition compute_rsi (close : series) (length : Z) : option series :=
  if decide (Z.of_nat (List.length close) < length + 1)%Z then
    Some (replicate (List.length close) (num 50))
  else
    let up := rsi_up close in
    let down := rsi_down close in
    alpha ← one_over length;
    roll_up ← ewm_mean_alpha alpha up;
    roll_down ← ewm_mean_alpha alpha down;
    let rs := sdiv roll_up (replace (num 0) NaN roll_down) in
    let rsi := scalar_sub (num 100) (scalar_div (num 100) (scalar_add (num 1) rs)) in
    Some (fillna (num 50) rsi).

Definition compute_vwap (df : frame) : option series :=
  high ← getitem df "high";
  low ← getitem df "low";
  close ← getitem df "close";
  let typical := div_scalar (sadd (sadd high low) close) (num 3) in
  volume ← getitem df "volume";
  let tpv := smul typical volume in
  let vwap :=
    sdiv (cumsum tpv)
         (replace (num 0) NaN (cumsum_as (volume_dtype df) volume)) in
  Some (bfill (ffill vwap)).

(** The signed volume of line 46:
    [((close.diff().fillna(0) > 0).astype(int) * 2 - 1) * volume]. *)
Definition signed_volume (close volume : series) : series :=
  smul (sub_scalar
          (mul_scalar (astype_int (gt_scalar (fillna (num 0) (diff close)) (num 0)))
                      (num 2))
          (num 1))
       volume.

(** Line 46 on an int64 volume column: the factor is an int64 series and
    the product is taken in 64-bit integers. *)
Definition signed_volume_int64 (close volume : series) : series :=
  smul_int64
    (sub_scalar
       (mul_scalar (astype_int (gt_scalar (fillna (num 0) (diff close)) (num 0)))
                   (num 2))
       (num 1))
    volume.

(** Line 46 for a volume column of the dtype [dt]; the product has the
    dtype [result_type int64 dt]. *)
Definition signed_volume_as (dt : dtype) (close volume : series) : series :=
  match dt with
  | int64 => signed_volume_int64 close volume
  | float64 | uint64 => signed_volume close volume
  end.

(** The true range of lines 48-52. *)
Definition true_range (high low close : series) : series :=
  row_max3 (ssub high low)
           (sabs (ssub high (shift close)))
           (sabs (ssub low (shift close))).

(** [compute_all_indicators] on frame values: the local name [df] is bound
    anew at every assignment.  The object-level version, with the copy and
    the in-place column assignments on it, is [Obj.compute_all_indicators]
    below. *)
Definition compute_all_indicators (df : frame) : option frame :=
  let df := df in
  close ← getitem df "close";
  rsi ← compute_rsi close 14;
  let df := setitem "RSI" rsi df in
  '(macd_line, macd_signal, macd_hist) ← macd df 12 26 9;
  let df := setitem "MACD" macd_line df in
  let df := setitem "MACD_signal" macd_signal df in
  let df := setitem "MACD_hist" macd_hist df in
  close ← getitem df "close";
  ema_10 ← ema close 10;
  let df := setitem "EMA_10" ema_10 df in
  close ← getitem df "close";
  ema_100 ← ema close 100;
  let df := setitem "EMA_100" ema_100 df in
  vwap ← compute_vwap df;
  let df := setitem "VWAP" vwap df in
  close ← getitem df "close";
  volume ← getitem df "volume";
  let dt := volume_dtype df in
  let df := setitem "OBV" (signed_volume_as dt close volume) df in
  obv ← getitem df "OBV";
  let df := setitem "OBV" (cumsum_as (result_type int64 dt) obv) df in
  high ← getitem df "high";
  low ← getitem df "low";
  close ← getitem df "close";
  let df := setitem "TR" (true_range high low close) df in
  tr ← getitem df "TR";
  let df := setitem "ATR_14" (rolling_mean 14 1 tr) df in
  let df := frame_replace_inf df in
  Some df.

(** ** backtest.py *)

Inductive side : Type := buy | sell.

Global Instance side_eq_dec : EqDecision side.
Proof. solve_decision. Defined.

(** A trade of the log: [(side, timestamp, price)]. *)
Definition trade : Type := side * timestamp * float.

Definition trade_side (t : trade) : side := t.1.1.
Definition trade_price (t : trade) : float := t.2.

Record result : Type := Result {
  final_portfolio_value : float;
  n_trades : nat;
  win_rate : float;
  trades_sample : list trade
}.

(** The local variables of the simulation loop. *)
Record portfolio : Type := Portfolio {
  cash : float;
  position : float;
  trades : list trade
}.

(** Lines 6-10: the copy of the frame with the columns [vol_mean20] and
    [signal]. *)
Definition with_signal (df : frame) : option frame :=
  let df := df in
  volume ← getitem df "volume";
  let df := setitem "vol_mean20" (rolling_mean 20 1 volume) df in
  let df := setitem_scalar "signal" (num 0) df in
  MACD ← getitem df "MACD";
  MACD_signal ← getitem df "MACD_signal";
  close ← getitem df "close";
  EMA_10 ← getitem df "EMA_10";
  volume ← getitem df "volume";
  vol_mean20 ← getitem df "vol_mean20";
  df ← loc_set (mask_and (mask_and (sgt MACD MACD_signal) (sgt close EMA_10))
                         (sgt volume vol_mean20))
               "signal" (num 1) df;
  MACD ← getitem df "MACD";
  MACD_signal ← getitem df "MACD_signal";
  close ← getitem df "close";
  EMA_10 ← getitem df "EMA_10";
  loc_set (mask_and (slt MACD MACD_signal) (slt close EMA_10))
          "signal" (num (-1)) df.

(** The body of the loop of lines 15-30 at bar [i]; [continue] leaves the
    variables as they are. *)
Definition bar_step (df : frame) (i : nat) (st : portfolio) : option portfolio :=
  signal ← getitem df "signal";
  sig ← signal !! i;
  if feqb sig (num 1) && feqb (position st) (num 0) then
    open ← getitem df "open";
    price ← open !! (i + 1)%nat;
    if isnan price || fle price (num 0) then Some st
    else
      ts ← index df !! (i + 1)%nat;
      Some (Portfolio (num 0) (fdiv (cash st) price)
                      (trades st ++ [(buy, ts, price)]))
  else if feqb sig (num (-1)) && fgt (position st) (num 0) then
    open ← getitem df "open";
    price ← open !! (i + 1)%nat;
    if isnan price || fle price (num 0) then Some st
    else
      ts ← index df !! (i + 1)%nat;
      Some (Portfolio (fmul (position st) price) (num 0)
                      (trades st ++ [(sell, ts, price)]))
  else Some st.

Fixpoint run_bars (df : frame) (bars : list nat) (st : portfolio)
  : option portfolio :=
  match bars with
  | [] => Some st
  | i :: bars' => st' ← bar_step df i st; run_bars df bars' st'
  end.

Definition initial_portfolio : portfolio :=
  Portfolio (num 100000) (num 0) [].

(** Lines 12-30: [for i in range(len(df)-1)]. *)
Definition simulate (df : frame) : option portfolio :=
  run_bars df (seq 0 (nrows df - 1)) initial_portfolio.

(** Line 31. *)
Definition final_value (df : frame) (st : portfolio) : option float :=
  held ← (if truthy (position st) then
            close ← getitem df "close";
            c ← iat_last close;
            Some (fmul (position st) c)
          else Some (num 0));
  Some (fadd (cash st) held).

(** [range(0, stop, 2)] *)
Definition range_step2 (stop : nat) : list nat :=
  (λ k, 2 * k)%nat <$> seq 0 ((stop + 1) / 2).

(** The body of the loop of lines 34-38. *)
Definition win_step (log : list trade) (wins : nat) (j : nat) : option nat :=
  t1 ← log !! j;
  t2 ← log !! (j + 1)%nat;
  if bool_decide (trade_side t1 = buy) && bool_decide (trade_side t2 = sell)
  then
    let entry := trade_price t1 in
    let exitp := trade_price t2 in
    if fgt exitp entry then Some (wins + 1)%nat else Some wins
  else Some wins.

Fixpoint count_wins_from (log : list trade) (wins : nat) (js : list nat)
  : option nat :=
  match js with
  | [] => Some wins
  | j :: js' => wins' ← win_step log wins j; count_wins_from log wins' js'
  end.

Definition count_wins (log : list trade) : option nat :=
  count_wins_from log 0 (range_step2 (length log - 1)).

(** Line 39. *)
Definition win_rate_of (wins n : nat) : float :=
  if decide (2 ≤ n)%nat
  then fdiv (num (Z.of_nat wins)) (fdiv (num (Z.of_nat n)) (num 2))
  else num 0.

Definition summary (df : frame) (st : portfolio) : option result :=
  final ← final_value df st;
  let n := length (trades st) in
  wins ← count_wins (trades st);
  Some (Result final n (win_rate_of wins n) (take 10 (trades st))).

Definition safe_backtest (df : frame) : option result :=
  df ← with_signal df;
  st ← simulate df;
  summary df st.

(** ** Frame objects

    [compute_all_indicators] copies its argument and assigns columns to the
    copy in place; [df.replace] then makes one more frame.  Frames are
    objects in a store and the function works on references, so that what
    happens to the frame of the caller can be stated. *)

Module Obj.

Abbreviation ref := positive.
Abbreviation store := (gmap positive frame).

(** A computation on the store that may raise. *)
Definition M (A : Type) : Type := store → option (A * store).

Definition ret {A} (a : A) : M A := λ σ, Some (a, σ).
Definition bind {A B} (m : M A) (k : A → M B) : M B :=
  λ σ, match m σ with
       | Some (a, σ') => k a σ'
       | None => None
       end.
Definition lift {A} (o : option A) : M A :=
  λ σ, match o with Some a => Some (a, σ) | None => None end.

Notation "x ←← m ; k" := (bind m (λ x, k))
  (at level 20, m at level 100, k at level 200, only parsing).
Notation "m ;;; k" := (bind m (λ _, k))
  (at level 100, k at level 200, right associativity, only parsing).

(** The reference of a new object. *)
Definition new_ref (σ : store) : ref := fresh (dom σ).

Definition alloc (df : frame) : M ref :=
  λ σ, let r := new_ref σ in Some (r, <[r := df]> σ).

Definition read (r : ref) : M frame :=
  λ σ, match σ !! r with Some df => Some (df, σ) | None => None end.

(** [df.copy()] *)
Definition copy (r : ref) : M ref :=
  df ←← read r; alloc df.

(** [df[name]] *)
Definition getitem (r : ref) (name : string) : M series :=
  df ←← read r; lift (getitem df name).

(** [df[name] = s]: the object is updated in place. *)
Definition setitem (r : ref) (name : string) (s : series) : M unit :=
  λ σ, match σ !! r with
       | Some df => Some ((), <[r := setitem name s df]> σ)
       | None => None
       end.

(** [df.replace([np.inf, -np.inf], np.nan)] returns a new object. *)
Definition replace_inf (r : ref) : M ref :=
  df ←← read r; alloc (frame_replace_inf df).

Definition macd (r : ref) (fast slow signal : Z)
  : M (series * series * series) :=
  df ←← read r; lift (macd df fast slow signal).

Definition compute_vwap (r : ref) : M series :=
  df ←← read r; lift (compute_vwap df).

(** The dtype of the series [df['volume']]. *)
Definition volume_dtype (r : ref) : M dtype :=
  df ←← read r; ret (volume_dtype df).

Definition compute_all_indicators (df : ref) : M ref :=
  df ←← copy df;
  close ←← getitem df "close";
  rsi ←← lift (compute_rsi close 14);
  setitem df "RSI" rsi;;;
  lines ←← macd df 12 26 9;
  let '(macd_line, macd_signal, macd_hist) := lines in
  setitem df "MACD" macd_line;;;
  setitem df "MACD_signal" macd_signal;;;
  setitem df "MACD_hist" macd_hist;;;
  close ←← getitem df "close";
  ema_10 ←← lift (ema close 10);
  setitem df "EMA_10" ema_10;;;
  close ←← getitem df "close";
  ema_100 ←← lift (ema close 100);
  setitem df "EMA_100" ema_100;;;
  vwap ←← compute_vwap df;
  setitem df "VWAP" vwap;;;
  close ←← getitem df "close";
  volume ←← getitem df "volume";
  dt ←← volume_dtype df;
  setitem df "OBV" (signed_volume_as dt close volume);;;
  obv ←← getitem df "OBV";
  setitem df "OBV" (cumsum_as (result_type int64 dt) obv);;;
  high ←← getitem df "high";
  low ←← getitem df "low";
  close ←← getitem df "close";
  setitem df "TR" (true_range high low close);;;
  tr ←← getitem df "TR";
  setitem df "ATR_14" (rolling_mean 14 1 tr);;;
  df ←← replace_inf df;
  ret df.

End Obj.

(** ** Shapes of frames and reference definitions used by the statements *)

Global Instance frame_eq_dec : EqDecision frame.
Proof. solve_decision. Defined.

Global Instance portfolio_eq_dec : EqDecision portfolio.
Proof. solve_decision. Defined.

Global Instance result_eq_dec : EqDecision result.
Proof. solve_decision. Defined.

(** The column [name] is there and has one value per row. *)
Definition col_ok (df : frame) (name : string) : bool :=
  match getitem df name with
  | Some c => bool_decide (length c = nrows df)
  | None => false
  end.

(** A bar series: the input of the indicator engine. *)
Definition bars_frame (df : frame) : bool :=
  forallb (col_ok df) ["open"; "high"; "low"; "close"; "volume"].

(** The columns [safe_backtest] reads. *)
Definition backtest_frame (df : frame) : bool :=
  forallb (col_ok df)
          ["open"; "close"; "volume"; "MACD"; "MACD_signal"; "EMA_10"].

(** No value of the column [name] is infinite. *)
Definition col_no_inf (df : frame) (name : string) : bool :=
  match getitem df name with
  | Some c => forallb (λ x, negb (isinf x)) c
  | None => false
  end.

(** The signal of one bar, as lines 8-10 leave it. *)
Definition signal_at (macd msig close ema vol mean : float) : float :=
  if flt macd msig && flt close ema then num (-1)
  else if fgt macd msig && fgt close ema && fgt vol mean then num 1
  else num 0.

(** The recursion of the exponential moving average, on exact numbers:
    [e 0 = x 0] and [e t = a * x t + (1 - a) * e (t - 1)]. *)
Fixpoint ema_rec_from (a : Qc) (prev : Qc) (xs : list Qc) : list Qc :=
  match xs with
  | [] => []
  | x :: xs' =>
      let e := a * x + (1 - a) * prev in
      e :: ema_rec_from a e xs'
  end.

Definition ema_rec (a : Qc) (xs : list Qc) : list Qc :=
  match xs with
  | [] => []
  | x :: xs' => x :: ema_rec_from a x xs'
  end.



(** What the body of the loop does to the variables at a bar whose signal
    is [sig], when the next bar has the open [price] and the timestamp
    [ts]: [bar_step] with its reads done (lemma [bar_step_update]). *)
Definition bar_update (sig price : float) (ts : timestamp) (st : portfolio)
  : portfolio :=
  if feqb sig (num 1) && feqb (position st) (num 0) then
    if isnan price || fle price (num 0) then st
    else Portfolio (num 0) (fdiv (cash st) price)
                   (trades st ++ [(buy, ts, price)])
  else if feqb sig (num (-1)) && fgt (position st) (num 0) then
    if isnan price || fle price (num 0) then st
    else Portfolio (fmul (position st) price) (num 0)
                   (trades st ++ [(sell, ts, price)])
  else st.

(** A signal the loop would act on in the state [st]. *)
Definition actionable (sig : float) (st : portfolio) : bool :=
  (feqb sig (num 1) && feqb (position st) (num 0))
  || (feqb sig (num (-1)) && fgt (position st) (num 0)).

(** A fill price the loop rejects. *)
Definition invalid_fill (price : float) : bool :=
  isnan price || fle price (num 0).

(** [x >= 0] on floats. *)
Definition nonneg (x : float) : Prop := fle (num 0) x = true.

(** The column [signal] that lines 7-10 compute from the columns they
    read, for a frame of [n] rows. *)
Definition signal_column (M S C E V : series) (n : nat) : series :=
  zip_with (λ (m : bool) x, if m then num (-1) else x)
    (mask_and (slt M S) (slt C E))
    (zip_with (λ (m : bool) x, if m then num 1 else x)
       (mask_and (mask_and (sgt M S) (sgt C E))
                 (sgt V (rolling_mean 20 1 V)))
       (replicate n (num 0))).

(** The frame the loop runs on: the signal column, the opens and the
    index all have [n] entries. *)
Record loop_frame (df : frame) (signal O : series) (n : nat) : Prop := {
  lf_signal : getitem df "signal" = Some signal;
  lf_open : getitem df "open" = Some O;
  lf_signal_len : length signal = n;
  lf_open_len : length O = n;
  lf_index_len : length (index df) = n
}.

(** The columns [safe_backtest] reads, all as long as the index. *)
Record backtest_cols (df : frame) (O C V M S E : series) : Prop := {
  bc_open : getitem df "open" = Some O;
  bc_close : getitem df "close" = Some C;
  bc_volume : getitem df "volume" = Some V;
  bc_macd : getitem df "MACD" = Some M;
  bc_macd_signal : getitem df "MACD_signal" = Some S;
  bc_ema : getitem df "EMA_10" = Some E;
  bc_open_len : length O = nrows df;
  bc_close_len : length C = nrows df;
  bc_volume_len : length V = nrows df;
  bc_macd_len : length M = nrows df;
  bc_macd_signal_len : length S = nrows df;
  bc_ema_len : length E = nrows df
}.

(** The state of the loop holds two numbers that are not negative. *)
Definition sound_state (st : portfolio) : Prop :=
  ∃ c p, cash st = Fin c ∧ position st = Fin p ∧ 0 ≤ c ∧ 0 ≤ p.

(** ** Sample frames

    Small frames on which the statements below are instantiated. *)

Definition floats (l : list Z) : series := num <$> l.

(** Four bars; the derived signals are [0, +1, -1, 0]. *)
Definition sample_round_trip : frame :=
  Frame [1; 2; 3; 4]%Z
    (list_to_map
       [("open", floats [10; 10; 20; 30]);
        ("close", floats [11; 12; 22; 30]);
        ("volume", floats [100; 200; 50; 70]);
        ("MACD", floats [1; 1; 0; 0]);
        ("MACD_signal", floats [0; 0; 1; 0]);
        ("EMA_10", floats [0; 0; 30; 30])]%Z)
    float64.

Definition sample_round_trip_signal : frame :=
  default sample_round_trip (with_signal sample_round_trip).

(** Six bars; the derived signals are [0, +1, -1, +1, 0, 0], which gives
    a buy, a sell and a last buy that is never closed. *)
Definition sample_open_position : frame :=
  Frame [1; 2; 3; 4; 5; 6]%Z
    (list_to_map
       [("open", floats [10; 10; 20; 30; 25; 26]);
        ("close", floats [11; 12; 22; 30; 27; 28]);
        ("volume", floats [100; 200; 50; 300; 70; 70]);
        ("MACD", floats [1; 1; 0; 1; 0; 0]);
        ("MACD_signal", floats [0; 0; 1; 0; 0; 0]);
        ("EMA_10", floats [0; 0; 30; 0; 30; 30])]%Z)
    float64.

(** A frame with its signal column whose second open is missing. *)
Definition sample_missing_open : frame :=
  Frame [1; 2; 3]%Z
    (list_to_map
       [("open", [num 10; NaN; num 12]);
        ("signal", floats [1; 1; 0])]%Z)
    float64.

(** A number that is not negative, and a number of the interval
    [0, 100]. *)
Definition nonneg_number (x : float) : Prop := ∃ q, x = Fin q ∧ 0 ≤ q.
Definition in_0_100 (x : float) : Prop := ∃ q, x = Fin q ∧ 0 ≤ q ≤ zq 100.

(** A value that is missing or a number that is not negative. *)
Definition nonneg_or_missing (x : float) : Prop := x = NaN ∨ nonneg_number x.

(** The state of the averaging routine on such values. *)
Definition ewm_nonneg (st : ewm_state) : Prop :=
  nonneg_number (weighted st) ∧ 0 ≤ old_wt st ∧ (1 ≤ nobs st)%nat.

(** Lines 25-27 at one bar, from the smoothed up-move and down-move. *)
Definition rsi_value (up down : float) : float :=
  let rs := fdiv up (if feqb down (num 0) then NaN else down) in
  let rsi := fsub (num 100) (fdiv (num 100) (fadd (num 1) rs)) in
  if isnan rsi then num 50 else rsi.

(** The frame [df] with the ten indicator columns assigned in the order of
    lines 38-53 ([OBV] is assigned twice). *)
Definition indicator_columns
    (rsi macd_line macd_signal macd_hist ema_10 ema_100 vwap obv0 obv tr atr
       : series)
    (df : frame) : frame :=
  setitem "ATR_14" atr
    (setitem "TR" tr
       (setitem "OBV" obv
          (setitem "OBV" obv0
             (setitem "VWAP" vwap
                (setitem "EMA_100" ema_100
                   (setitem "EMA_10" ema_10
                      (setitem "MACD_hist" macd_hist
                         (setitem "MACD_signal" macd_signal
                            (setitem "MACD" macd_line
                               (setitem "RSI" rsi df)))))))))).

(** The five columns of a bar series, all as long as the index. *)
Record bars_cols (df : frame) (O H L C V : series) : Prop := {
  bs_open : getitem df "open" = Some O;
  bs_high : getitem df "high" = Some H;
  bs_low : getitem df "low" = Some L;
  bs_close : getitem df "close" = Some C;
  bs_volume : getitem df "volume" = Some V;
  bs_open_len : length O = nrows df;
  bs_high_len : length H = nrows df;
  bs_low_len : length L = nrows df;
  bs_close_len : length C = nrows df;
  bs_volume_len : length V = nrows df
}.

(** A bar series of four bars. *)
Definition sample_bars : frame :=
  Frame [1; 2; 3; 4]%Z
    (list_to_map
       [("open", floats [10; 10; 20; 30]);
        ("high", floats [12; 13; 25; 31]);
        ("low", floats [9; 8; 19; 29]);
        ("close", floats [11; 12; 22; 30]);
        ("volume", floats [100; 200; 50; 70])]%Z)
    float64.

(** Every column of the frame has one value per row, as in every pandas
    frame. *)
Definition wf_frame (df : frame) : bool :=
  forallb (λ kv : string * list float, bool_decide (length kv.2 = nrows df))
          (map_to_list (columns df)).

(** No value of the series is infinite. *)
Definition no_inf (s : series) : Prop := Forall (λ x, isinf x = false) s.

(** Sixteen closes: rising at first, so that the smoothed down-move of
    the first bars is zero. *)
Definition sample_closes : series :=
  floats [10; 11; 12; 13; 12; 14; 15; 13; 16; 17; 16; 18; 19; 17; 20; 21]%Z.




(** The integers an int64 cell can hold. *)
Definition in_int64 (z : Z) : Prop := (- 2 ^ 63 ≤ z < 2 ^ 63)%Z.



(** ** The trade log *)

(** The side the [k]-th trade of a well-formed log has: buys and sells
    alternate, a buy first. *)
Definition expected_side (k : nat) : side :=
  if Nat.even k then buy else sell.

Definition trade_time (t : trade) : timestamp := t.1.2.

(** A price that is a positive number. *)
Definition positive_number (x : float) : Prop := ∃ q, x = Fin q ∧ 0 < q.

(** The state of the loop between two iterations, on opens without
    infinite values: flat with some cash and a log of even length, or long
    with no cash and a log of odd length; the log alternates and holds
    positive prices. *)
Definition alternating_state (st : portfolio) : Prop :=
  (∀ k t, trades st !! k = Some t →
          trade_side t = expected_side k ∧ positive_number (trade_price t)) ∧
  ((Nat.even (length (trades st)) = true ∧
    position st = num 0 ∧ positive_number (cash st))
   ∨ (Nat.even (length (trades st)) = false ∧
      cash st = num 0 ∧ positive_number (position st))).

(** The timestamps of the log are increasing and come from the rows up to
    [i] of the index. *)
Definition log_in_time_order (idx : list timestamp) (i : nat) (st : portfolio)
  : Prop :=
  StronglySorted Z.lt (trade_time <$> trades st) ∧
  Forall (λ t, ∃ pos, (1 ≤ pos ≤ i)%nat ∧ idx !! pos = Some (trade_time t))
         (trades st).

(** Three bars whose [MACD] equals its signal line: no rule fires. *)
Definition sample_flat : frame :=
  Frame [1; 2; 3]%Z
    (list_to_map
       [("open", floats [10; 11; 12]);
        ("close", floats [10; 11; 12]);
        ("volume", floats [100; 100; 100]);
        ("MACD", floats [0; 0; 0]);
        ("MACD_signal", floats [0; 0; 0]);
        ("EMA_10", floats [10; 11; 12])]%Z)
    float64.

(** The columns the engine assigns. *)
Definition indicator_names : list string :=
  ["RSI"; "MACD"; "MACD_signal"; "MACD_hist"; "EMA_10"; "EMA_100"; "VWAP";
   "OBV"; "TR"; "ATR_14"].

(** The absolute value and the maximum of two numbers, as [fabs] and
    [fmax_skipna] take them. *)
Definition qabs (a : Qc) : Qc := if decide (a < 0) then - a else a.
Definition qmax (a b : Qc) : Qc := if decide (a < b) then b else a.

(** Sixteen rising closes. *)
Definition sample_rising : list Qc :=
  zq <$> [1; 2; 3; 4; 5; 6; 7; 8; 9; 10; 11; 12; 13; 14; 15; 16]%Z.

(** * Properties *)

(** ** Numbers *)

Lemma zq_0 : zq 0 = 0.
Proof. apply Z2Qc_inj_0. Qed.

Lemma zq_1 : zq 1 = 1.
Proof. apply Z2Qc_inj_1. Qed.

Lemma flt_irrefl x : flt x x = false.
Proof.
  destruct x; simpl; try done.
  apply bool_decide_eq_false. intros H; by apply Qclt_not_eq in H.
Qed.

Lemma flt_nan_r x : flt x NaN = false.
Proof. by destruct x. Qed.

(** ** Columns of a frame *)

Lemma getitem_setitem name name' s df :
  getitem (setitem name s df) name' =
  if decide (name = name') then Some s else getitem df name'.
Proof. unfold getitem, setitem; simpl. apply lookup_insert. Qed.

Lemma getitem_setitem_eq name s df : getitem (setitem name s df) name = Some s.
Proof. unfold getitem, setitem; simpl. apply lookup_insert_eq. Qed.

Lemma getitem_setitem_ne name name' s df :
  name ≠ name' → getitem (setitem name s df) name' = getitem df name'.
Proof. intros. unfold getitem, setitem; simpl. by apply lookup_insert_ne. Qed.

(** ** Rolling mean *)

Lemma rolling_mean_lookup w minp s t :
  (t < length s)%nat →
  rolling_mean w minp s !! t
  = Some (window_mean minp (trailing w t (prep_values s))).
Proof.
  intros Ht. unfold rolling_mean.
  rewrite list_lookup_fmap, lookup_seq_lt by done. done.
Qed.

Lemma length_rolling_mean w minp s : length (rolling_mean w minp s) = length s.
Proof. unfold rolling_mean. by rewrite length_fmap, length_seq. Qed.

(** The mean of a window of one value is that value. *)
Lemma window_mean_single x : window_mean 1 [x] = x.
Proof.
  unfold window_mean, present, fsum, num.
  destruct x as [| |q|]; simpl; try done.
  f_equal. change (Z.of_nat 1) with 1%Z.
  rewrite zq_0, zq_1, Qcplus_0_l. apply (right_id 1 Qcdiv).
Qed.

Lemma first_bar_window V v :
  V !! 0%nat = Some v →
  window_mean 1 (trailing 20 0 (prep_values V)) = if isinf v then NaN else v.
Proof.
  destruct V as [|v' V']; [done|]. intros [= ->].
  unfold trailing, prep_values. simpl. by rewrite window_mean_single.
Qed.

(** ** The signal column *)

Lemma with_signal_spec df M S C E V :
  getitem df "MACD" = Some M → getitem df "MACD_signal" = Some S →
  getitem df "close" = Some C → getitem df "EMA_10" = Some E →
  getitem df "volume" = Some V →
  ∃ df', with_signal df = Some df' ∧ index df' = index df ∧
    (∀ name, name ≠ "signal" → name ≠ "vol_mean20" →
             getitem df' name = getitem df name) ∧
    getitem df' "signal" = Some (signal_column M S C E V (nrows df)).
Proof.
  intros HM HS HC HE HV.
  unfold with_signal, loc_set, setitem_scalar.
  rewrite HV. simpl.
  repeat (rewrite !getitem_setitem; simpl).
  rewrite HM, HS, HC, HE, HV. simpl.
  repeat (rewrite !getitem_setitem; simpl).
  rewrite HM, HS, HC, HE. simpl.
  eexists. split; [done|]. split; [done|]. split.
  - intros name H1 H2. rewrite !getitem_setitem. repeat case_decide; congruence.
  - by rewrite getitem_setitem_eq.
Qed.

Lemma signal_lookup M S C E V (n t : nat) m s c e v :
  M !! t = Some m → S !! t = Some s → C !! t = Some c → E !! t = Some e →
  V !! t = Some v → (t < n)%nat →
  signal_column M S C E V n !! t =
  Some (signal_at m s c e v (window_mean 1 (trailing 20 t (prep_values V)))).
Proof.
  intros HM HS HC HE HV Ht.
  unfold signal_column, mask_and, slt, sgt.
  rewrite !lookup_zip_with.
  rewrite HM, HS, HC, HE, HV. simpl.
  rewrite rolling_mean_lookup by (by eapply lookup_lt_Some).
  rewrite lookup_replicate_2 by done. simpl.
  unfold signal_at.
  destruct (flt m s && flt c e); [done|].
  by destruct (fgt m s && fgt c e && fgt v _).
Qed.

Lemma signal_at_first_bar m s c e v :
  signal_at m s c e v (if isinf v then NaN else v) ≠ num 1.
Proof.
  unfold signal_at.
  destruct (flt m s && flt c e); [by intros [=]|].
  replace (fgt v (if isinf v then NaN else v)) with false.
  - rewrite andb_false_r. by intros [=].
  - unfold fgt. destruct (isinf v); [done | by rewrite flt_irrefl].
Qed.

(** ** The simulation loop *)

Lemma col_ok_spec df name :
  col_ok df name = true →
  ∃ c, getitem df name = Some c ∧ length c = nrows df.
Proof.
  unfold col_ok. destruct (getitem df name) as [c|]; [|done].
  intros H%bool_decide_eq_true. eauto.
Qed.

Lemma bar_step_update df i st signal sig O price ts :
  getitem df "signal" = Some signal → signal !! i = Some sig →
  getitem df "open" = Some O → O !! (i + 1)%nat = Some price →
  index df !! (i + 1)%nat = Some ts →
  bar_step df i st = Some (bar_update sig price ts st).
Proof.
  intros Hs Hsig HO Hp Hts. unfold bar_step, bar_update.
  rewrite Hs; simpl. rewrite Hsig; simpl.
  rewrite HO; simpl. rewrite Hp; simpl. rewrite Hts; simpl.
  repeat case_match; done.
Qed.

Lemma run_bars_app df bars1 bars2 st :
  run_bars df (bars1 ++ bars2) st
  = st' ← run_bars df bars1 st; run_bars df bars2 st'.
Proof.
  revert st. induction bars1 as [|i bars1 IH]; intros st; simpl; [done|].
  destruct (bar_step df i st) as [st'|]; simpl; [apply IH | done].
Qed.

Lemma loop_frame_step df signal O n i st :
  loop_frame df signal O n → (i + 1 < n)%nat →
  ∃ sig price ts,
    signal !! i = Some sig ∧ O !! (i + 1)%nat = Some price ∧
    index df !! (i + 1)%nat = Some ts ∧
    bar_step df i st = Some (bar_update sig price ts st).
Proof.
  intros [Hs HO Hsl HOl Hil] Hi.
  destruct (lookup_lt_is_Some_2 signal i) as [sig Hsig]; [lia|].
  destruct (lookup_lt_is_Some_2 O (i + 1)) as [price Hp]; [lia|].
  destruct (lookup_lt_is_Some_2 (index df) (i + 1)) as [ts Hts]; [lia|].
  exists sig, price, ts. eauto using bar_step_update.
Qed.

(** A property of the variables that every iteration keeps holds after
    any number of iterations, and the loop does not raise. *)
Lemma run_bars_invariant (P : portfolio → Prop) df signal O n bars st :
  loop_frame df signal O n →
  Forall (λ i, i + 1 < n)%nat bars →
  (∀ i sig price ts st0,
      signal !! i = Some sig → O !! (i + 1)%nat = Some price →
      P st0 → P (bar_update sig price ts st0)) →
  P st →
  ∃ st', run_bars df bars st = Some st' ∧ P st'.
Proof.
  intros Hlf Hbars Hstep. revert st.
  induction Hbars as [|i bars Hi _ IH]; intros st HP; simpl; [eauto|].
  destruct (loop_frame_step df signal O n i st Hlf Hi)
    as (sig & price & ts & Hsig & Hp & _ & ->).
  simpl. apply IH. eauto.
Qed.

Lemma length_signal_column M S C E V n :
  length M = n → length S = n → length C = n → length E = n → length V = n →
  length (signal_column M S C E V n) = n.
Proof.
  intros. unfold signal_column, mask_and, slt, sgt.
  rewrite !length_zip_with, length_rolling_mean, length_replicate. lia.
Qed.

Lemma backtest_frame_cols df :
  backtest_frame df = true → ∃ O C V M S E, backtest_cols df O C V M S E.
Proof.
  unfold backtest_frame. simpl. rewrite !andb_true_iff.
  intros (HO & HC & HV & HM & HS & HE & _).
  apply col_ok_spec in HO as (O & ? & ?), HC as (C & ? & ?), HV as (V & ? & ?).
  apply col_ok_spec in HM as (M & ? & ?), HS as (S & ? & ?), HE as (E & ? & ?).
  by exists O, C, V, M, S, E.
Qed.

Lemma with_signal_loop_frame df O C V M S E :
  backtest_cols df O C V M S E →
  ∃ df', with_signal df = Some df' ∧ nrows df' = nrows df ∧
    index df' = index df ∧ getitem df' "close" = Some C ∧
    loop_frame df' (signal_column M S C E V (nrows df)) O (nrows df).
Proof.
  intros [].
  destruct (with_signal_spec df M S C E V) as (df' & Hws & Hidx & Hcols & Hsig);
    try done.
  exists df'. split; [done|]. split; [unfold nrows; by rewrite Hidx|].
  split; [done|]. split; [by rewrite Hcols|].
  split; try done.
  - by rewrite Hcols.
  - by apply length_signal_column.
  - unfold nrows. by rewrite Hidx.
Qed.

(** ** Arithmetic on rationals *)

Lemma Qc_div_nonneg (a b : Qc) : 0 ≤ a → 0 < b → 0 ≤ a / b.
Proof.
  intros Ha Hb. unfold Qcdiv.
  apply Qcmult_nonneg_nonneg; [done|]. by apply Qclt_le_weak, Qcinv_pos.
Qed.

Lemma Qc_div_pos (a b : Qc) : 0 < a → 0 < b → 0 < a / b.
Proof.
  intros Ha Hb. unfold Qcdiv. apply Qcmult_pos_pos; [done|]. by apply Qcinv_pos.
Qed.

Lemma Qc_pos_ne_0 (a : Qc) : 0 < a → a ≠ 0.
Proof. intros Ha ->. by apply Qclt_not_eq in Ha. Qed.

Lemma Qc_div_le_1 (a b : Qc) : 0 < b → a ≤ b → a / b ≤ 1.
Proof.
  intros Hb Hab.
  apply (Qcmult_le_mono_pos_r _ _ b); [done|].
  unfold Qcdiv. rewrite <-Qcmult_assoc, (Qcmult_comm (/ b)), Qcmult_inv_r
    by (by apply Qc_pos_ne_0).
  by rewrite Qcmult_1_r, Qcmult_1_l.
Qed.

Lemma fdiv_fin (a b : Qc) : b ≠ 0 → fdiv (Fin a) (Fin b) = Fin (a / b).
Proof. intros Hb. unfold fdiv. by case_decide. Qed.

Lemma fle_0_fin (q : Qc) : fle (num 0) (Fin q) = true ↔ 0 ≤ q.
Proof. unfold num; simpl. rewrite zq_0. apply bool_decide_eq_true. Qed.

Lemma fle_fin_0 (q : Qc) : fle (Fin q) (num 0) = false ↔ 0 < q.
Proof.
  unfold num; simpl. rewrite zq_0, bool_decide_eq_false. symmetry. apply Qclt_nge.
Qed.

(** A fill price that passes the guard of the loop and is not infinite is
    a positive number. *)
Lemma valid_fill_positive price :
  invalid_fill price = false → isinf price = false →
  ∃ q, price = Fin q ∧ 0 < q.
Proof.
  unfold invalid_fill. destruct price as [| |q|]; try done.
  simpl. intros H _. exists q. split; [done|]. by apply fle_fin_0.
Qed.

(** ** The backtest: skipped fills, the first bar, the sign of the state *)

(** C2: when the loop is at a bar [t] whose signal it would act on (a buy
    signal while flat, a sell signal while long) and the open of the next
    bar is missing or not positive, the iteration changes nothing: the
    cash, the position and the trade log are the same afterwards, and the
    loop goes on with the following bars from that same state (the signal
    of bar [t] is not looked at again). *)
Theorem invalid_fill_skips_bar df signal O t sig price st bars :
  getitem df "signal" = Some signal → signal !! t = Some sig →
  getitem df "open" = Some O → O !! (t + 1)%nat = Some price →
  actionable sig st = true → invalid_fill price = true →
  bar_step df t st = Some st ∧
  run_bars df (t :: bars) st = run_bars df bars st.
Proof.
  intros Hs Hsig HO Hp Hact Hinv.
  assert (bar_step df t st = Some st) as Hstep.
  { unfold bar_step. rewrite Hs; simpl. rewrite Hsig; simpl.
    unfold actionable in Hact. unfold invalid_fill in Hinv.
    destruct (feqb sig (num 1) && feqb (position st) (num 0)).
    - rewrite HO; simpl. rewrite Hp; simpl. by rewrite Hinv.
    - simpl in Hact. rewrite Hact.
      rewrite HO; simpl. rewrite Hp; simpl. by rewrite Hinv. }
  split; [done|]. simpl. by rewrite Hstep.
Qed.

Lemma signal_at_values m s c e v mean :
  signal_at m s c e v mean = num (-1) ∨ signal_at m s c e v mean = num 1
  ∨ signal_at m s c e v mean = num 0.
Proof. unfold signal_at. repeat case_match; auto. Qed.

(** C10: the signal derived for the first bar is never [+1], whatever the
    input: the trailing mean volume of the first bar is its own volume (or
    missing), so the strict comparison of the buy rule fails.  The signal
    of the first bar is [0] or [-1], and the first iteration of the loop
    leaves the initial state as it is: no trade comes from the first
    bar. *)
Theorem first_bar_never_buys df :
  backtest_frame df = true → (0 < nrows df)%nat →
  ∃ df' signal s0,
    with_signal df = Some df' ∧ getitem df' "signal" = Some signal ∧
    signal !! 0%nat = Some s0 ∧ s0 ≠ num 1 ∧
    (s0 = num 0 ∨ s0 = num (-1)) ∧
    bar_step df' 0 initial_portfolio = Some initial_portfolio.
Proof.
  intros Hbf Hn.
  destruct (backtest_frame_cols df Hbf) as (O & C & V & M & S & E & Hc).
  destruct (with_signal_loop_frame df O C V M S E Hc)
    as (df' & Hws & _ & _ & _ & Hlf).
  destruct Hc. destruct Hlf as [Hsig _ _ _ _].
  destruct (lookup_lt_is_Some_2 M 0) as [m Hm]; [lia|].
  destruct (lookup_lt_is_Some_2 S 0) as [s Hs]; [lia|].
  destruct (lookup_lt_is_Some_2 C 0) as [c Hc]; [lia|].
  destruct (lookup_lt_is_Some_2 E 0) as [e He]; [lia|].
  destruct (lookup_lt_is_Some_2 V 0) as [v Hv]; [lia|].
  pose proof (signal_lookup M S C E V (nrows df) 0 m s c e v Hm Hs Hc He Hv Hn)
    as Hs0.
  rewrite (first_bar_window V v Hv) in Hs0.
  pose proof (signal_at_first_bar m s c e v) as Hne.
  set (s0 := signal_at m s c e v (if isinf v then NaN else v)) in *.
  assert (s0 = num 0 ∨ s0 = num (-1)) as Hval.
  { destruct (signal_at_values m s c e v (if isinf v then NaN else v))
      as [?|[?|?]]; [by right|done|by left]. }
  exists df', (signal_column M S C E V (nrows df)), s0.
  repeat split; try done.
  unfold bar_step. rewrite Hsig; simpl. rewrite Hs0; simpl.
  by destruct Hval as [-> | ->].
Qed.

Lemma bar_update_sound sig price ts st :
  isinf price = false → sound_state st →
  sound_state (bar_update sig price ts st).
Proof.
  intros Hinf (c & p & Hc & Hp & Hc0 & Hp0). unfold bar_update.
  fold (invalid_fill price).
  destruct (feqb sig (num 1) && feqb (position st) (num 0)).
  - destruct (invalid_fill price) eqn:Hv; [by exists c, p|].
    destruct (valid_fill_positive price Hv Hinf) as (q & -> & Hq).
    exists (zq 0), (c / q). simpl. rewrite Hc, fdiv_fin by by apply Qc_pos_ne_0.
    repeat split; [by rewrite zq_0|by apply Qc_div_nonneg].
  - destruct (feqb sig (num (-1)) && fgt (position st) (num 0));
      [|by exists c, p].
    destruct (invalid_fill price) eqn:Hv; [by exists c, p|].
    destruct (valid_fill_positive price Hv Hinf) as (q & -> & Hq).
    exists (p * q), (zq 0). simpl. rewrite Hp. simpl.
    repeat split; [|by rewrite zq_0].
    apply Qcmult_nonneg_nonneg; [done|by apply Qclt_le_weak].
Qed.

Lemma col_no_inf_lookup df name c i x :
  col_no_inf df name = true → getitem df name = Some c → c !! i = Some x →
  isinf x = false.
Proof.
  unfold col_no_inf. intros H Hc Hx. rewrite Hc in H.
  rewrite forallb_forall in H. specialize (H x).
  destruct (isinf x); [|done].
  assert (In x c) as Hin by (apply list_elem_of_In; by eapply list_elem_of_lookup_2).
  by specialize (H Hin).
Qed.

(** C5: on an extended series (its opens hold no infinite value, as in
    every frame the indicator engine returns, lemma
    [engine_output_backtest_input]), the loop started with
    [cash = 100000] and [position = 0] runs through any number of bars
    without raising, and after every iteration [cash >= 0] and
    [position >= 0]: the state never goes negative and no short position
    is opened.  Missing and non-positive opens are allowed: the guard
    skips them. *)
Theorem portfolio_never_negative df :
  backtest_frame df = true → col_no_inf df "open" = true →
  ∃ df', with_signal df = Some df' ∧
    ∀ k, (k ≤ nrows df - 1)%nat →
      ∃ st, run_bars df' (seq 0 k) initial_portfolio = Some st ∧
            nonneg (cash st) ∧ nonneg (position st).
Proof.
  intros Hbf Hinf.
  destruct (backtest_frame_cols df Hbf) as (O & C & V & M & S & E & Hc).
  destruct (with_signal_loop_frame df O C V M S E Hc)
    as (df' & Hws & _ & _ & _ & Hlf).
  exists df'. split; [done|]. intros k Hk.
  destruct (run_bars_invariant sound_state df' _ O (nrows df) (seq 0 k)
              initial_portfolio Hlf) as (st & Hrun & Hst).
  - apply Forall_seq. intros; lia.
  - intros i sig price ts st0 _ Hp Hst0.
    apply bar_update_sound; [|done].
    eapply col_no_inf_lookup; [done|by destruct Hc|done].
  - exists (zq 100000), (zq 0). repeat split; by apply (bool_decide_unpack _).
  - exists st. split; [done|].
    destruct Hst as (c & p & -> & -> & ? & ?).
    split; by apply fle_0_fin.
Qed.

(** ** The win rate *)

Lemma win_step_bounds log w j :
  (j + 1 < length log)%nat →
  ∃ w', win_step log w j = Some w' ∧ (w ≤ w' ≤ w + 1)%nat.
Proof.
  intros Hj. unfold win_step.
  destruct (lookup_lt_is_Some_2 log j) as [t1 ->]; [lia|].
  destruct (lookup_lt_is_Some_2 log (j + 1)) as [t2 ->]; [lia|].
  simpl. repeat case_match; eexists; (split; [done|lia]).
Qed.

Lemma count_wins_from_bounds log js w :
  Forall (λ j, j + 1 < length log)%nat js →
  ∃ w', count_wins_from log w js = Some w' ∧ (w ≤ w' ≤ w + length js)%nat.
Proof.
  intros Hjs. revert w. induction Hjs as [|j js Hj _ IH]; intros w; simpl.
  - exists w. split; [done|lia].
  - destruct (win_step_bounds log w j Hj) as (w1 & -> & ?). simpl.
    destruct (IH w1) as (w2 & -> & ?). exists w2. split; [done|lia].
Qed.

Lemma range_step2_pairs n :
  Forall (λ j, j + 1 < n)%nat (range_step2 (n - 1)) ∧
  (length (range_step2 (n - 1)) ≤ n / 2)%nat.
Proof.
  unfold range_step2. rewrite length_fmap, length_seq. split.
  - apply Forall_fmap, Forall_seq. intros k Hk. simpl.
    destruct n as [|n]; [simpl in Hk; lia|].
    replace (S n - 1 + 1)%nat with (S n) in Hk by lia.
    pose proof (Nat.Div0.mul_div_le (S n) 2). lia.
  - destruct n as [|n]; [done|].
    replace (S n - 1 + 1)%nat with (S n) by lia. done.
Qed.

(** The pairing loop does not raise, and counts at most one win for every
    two trades of the log. *)
Lemma count_wins_bounds log :
  ∃ wins, count_wins log = Some wins ∧ (wins ≤ length log / 2)%nat.
Proof.
  destruct (range_step2_pairs (length log)) as [Hjs Hlen].
  destruct (count_wins_from_bounds log _ 0 Hjs) as (w & Hw & ?).
  exists w. split; [done|lia].
Qed.

Lemma zq_le (n m : Z) : (n ≤ m)%Z → zq n ≤ zq m.
Proof. apply (Z2Qc_inj_le n m). Qed.

Lemma zq_lt (n m : Z) : (n < m)%Z → zq n < zq m.
Proof. apply (Z2Qc_inj_lt n m). Qed.

Lemma zq_nonneg (n : nat) : 0 ≤ zq (Z.of_nat n).
Proof. rewrite <-zq_0. apply zq_le. lia. Qed.

Lemma zq_pos (n : Z) : (0 < n)%Z → 0 < zq n.
Proof. intros. rewrite <-zq_0. by apply zq_lt. Qed.

Lemma win_rate_of_unit wins n :
  (wins ≤ n / 2)%nat →
  ∃ q, win_rate_of wins n = Fin q ∧ 0 ≤ q ≤ 1.
Proof.
  intros Hw. unfold win_rate_of. case_decide as Hn.
  - assert (0 < zq 2) as H2 by (by apply zq_pos).
    assert (0 < zq (Z.of_nat n)) as Hn0 by (apply zq_pos; lia).
    assert (0 < zq (Z.of_nat n) / zq 2) as Hd by (by apply Qc_div_pos).
    unfold num. rewrite (fdiv_fin _ (zq 2)) by (by apply Qc_pos_ne_0).
    rewrite fdiv_fin by (by apply Qc_pos_ne_0).
    eexists. split; [done|]. split.
    + apply Qc_div_nonneg; [apply zq_nonneg|done].
    + apply Qc_div_le_1; [done|].
      apply (Qcmult_le_mono_pos_r _ _ (zq 2)); [done|].
      replace (zq (Z.of_nat n) / zq 2 * zq 2) with (zq (Z.of_nat n))
        by (field; by apply Qc_pos_ne_0).
      unfold zq. rewrite <-Z2Qc_inj_mul. apply zq_le.
      pose proof (Nat.Div0.mul_div_le n 2). lia.
  - exists (zq 0). split; [done|]. rewrite zq_0. split; [done|].
    by apply (bool_decide_unpack _).
Qed.

Lemma final_value_runs df C st :
  getitem df "close" = Some C →
  C ≠ [] ∨ position st = num 0 →
  ∃ final, final_value df st = Some final.
Proof.
  intros HC Hne. unfold final_value.
  destruct (truthy (position st)) eqn:Ht; simpl; [|eauto].
  rewrite HC; simpl. unfold iat_last.
  destruct Hne as [Hne | Hp].
  - destruct (last C) as [c|] eqn:Hl; simpl; [eauto|].
    by apply last_None in Hl.
  - rewrite Hp in Ht. done.
Qed.

(** [safe_backtest] returns on every frame that has the columns it
    reads. *)
Lemma safe_backtest_runs df :
  backtest_frame df = true →
  ∃ df' st final wins,
    with_signal df = Some df' ∧ simulate df' = Some st ∧
    final_value df' st = Some final ∧ count_wins (trades st) = Some wins ∧
    (wins ≤ length (trades st) / 2)%nat ∧
    safe_backtest df
    = Some (Result final (length (trades st))
                   (win_rate_of wins (length (trades st)))
                   (take 10 (trades st))).
Proof.
  intros Hbf.
  destruct (backtest_frame_cols df Hbf) as (O & C & V & M & S & E & Hc).
  destruct (with_signal_loop_frame df O C V M S E Hc)
    as (df' & Hws & Hn & _ & HC & Hlf).
  destruct (run_bars_invariant (λ st, nrows df = 0%nat → position st = num 0)
              df' _ O (nrows df) (seq 0 (nrows df - 1))
              initial_portfolio Hlf) as (st & Hrun & Hst).
  { apply Forall_seq. intros; lia. }
  { intros i sig price ts st0 Hi. apply lookup_lt_Some in Hi.
    destruct Hlf as [_ _ Hl _ _]. lia. }
  { done. }
  destruct (final_value_runs df' C st HC) as [final Hfinal].
  { destruct C as [|c C']; [right|by left].
    apply Hst. destruct Hc. by simplify_eq/=. }
  destruct (count_wins_bounds (trades st)) as (wins & Hwins & Hle).
  exists df', st, final, wins.
  assert (simulate df' = Some st) as Hsim by (unfold simulate; by rewrite Hn).
  repeat split; try done.
  unfold safe_backtest, summary. rewrite Hws; simpl. rewrite Hsim; simpl.
  rewrite Hfinal; simpl. by rewrite Hwins.
Qed.

(** C3: on every input series [safe_backtest] returns, and the win rate
    of its result is a number of the interval [0, 1].  With [wins] the
    number of winning pairs counted over the trade log, it is
    [wins / (n_trades / 2)] when [n_trades >= 2] and [0] otherwise, and
    [wins] is at most the number of complete pairs (the integer half of
    [n_trades]): a trailing unmatched buy adds to [n_trades] and is never
    a win, so the ratio does not exceed 1. *)
Theorem win_rate_in_unit_interval df :
  backtest_frame df = true →
  ∃ r df' st wins q,
    safe_backtest df = Some r ∧
    with_signal df = Some df' ∧ simulate df' = Some st ∧
    n_trades r = length (trades st) ∧
    count_wins (trades st) = Some wins ∧
    (wins ≤ n_trades r / 2)%nat ∧
    ((2 ≤ n_trades r)%nat →
       win_rate r = Fin (zq (Z.of_nat wins) / (zq (Z.of_nat (n_trades r)) / zq 2))) ∧
    ((n_trades r < 2)%nat → win_rate r = num 0) ∧
    win_rate r = Fin q ∧ 0 ≤ q ≤ 1.
Proof.
  intros Hbf.
  destruct (safe_backtest_runs df Hbf)
    as (df' & st & final & wins & Hws & Hsim & _ & Hwins & Hle & Hr).
  destruct (win_rate_of_unit wins (length (trades st)) Hle) as (q & Hq & Hq01).
  eexists _, df', st, wins, q. split; [exact Hr|]. simpl.
  repeat split; try done.
  - intros Hn. unfold win_rate_of. case_decide; [|lia].
    unfold num. rewrite (fdiv_fin _ (zq 2)) by (by apply Qc_pos_ne_0, zq_pos).
    rewrite fdiv_fin; [done|].
    apply Qc_pos_ne_0, Qc_div_pos; apply zq_pos; lia.
  - intros Hn. unfold win_rate_of. case_decide; [lia|done].
  - apply Hq01.
  - apply Hq01.
Qed.

(** ** One round trip *)

Lemma bar_update_idle price ts st : bar_update (num 0) price ts st = st.
Proof. unfold bar_update. by simpl. Qed.

(** Bars whose signal is [0] leave the state alone. *)
Lemma run_bars_idle df signal O n bars st :
  loop_frame df signal O n →
  Forall (λ t, (t + 1 < n)%nat ∧ signal !! t = Some (num 0)) bars →
  run_bars df bars st = Some st.
Proof.
  intros Hlf Hbars. induction Hbars as [|t bars [Ht Hsig] _ IH]; simpl; [done|].
  destruct (loop_frame_step df signal O n t st Hlf Ht)
    as (sig & price & ts & Hsig' & _ & _ & ->).
  simplify_eq. simpl. by rewrite bar_update_idle.
Qed.

Lemma bar_update_buy (p : Qc) ts c :
  0 < p →
  bar_update (num 1) (Fin p) ts (Portfolio (Fin c) (num 0) [])
  = Portfolio (num 0) (Fin (c / p)) [(buy, ts, Fin p)].
Proof.
  intros Hp. unfold bar_update. simpl.
  assert (bool_decide (p ≤ zq 0) = false) as ->.
  { apply bool_decide_eq_false. rewrite zq_0. by apply Qclt_not_le. }
  by rewrite decide_False by (by apply Qc_pos_ne_0).
Qed.

Lemma bar_update_sell (p q : Qc) ts log :
  0 < p → 0 < q →
  bar_update (num (-1)) (Fin p) ts (Portfolio (num 0) (Fin q) log)
  = Portfolio (Fin (q * p)) (num 0) (log ++ [(sell, ts, Fin p)]).
Proof.
  intros Hp Hq. unfold bar_update. simpl.
  assert (bool_decide (zq 0 < q) = true) as ->.
  { apply bool_decide_eq_true. by rewrite zq_0. }
  assert (bool_decide (p ≤ zq 0) = false) as ->.
  { apply bool_decide_eq_false. rewrite zq_0. by apply Qclt_not_le. }
  done.
Qed.

(** C1: an extended series of [N >= 2] bars whose derived signal is [+1]
    at the single bar [i], [-1] at the single bar [j] with
    [i < j <= N - 2] and [0] elsewhere, with the fill prices
    [p1 = open (i+1)] and [p2 = open (j+1)] present and positive:
    [safe_backtest] returns two trades, the final value
    [(100000 / p1) * p2], and the win rate [1] when [p2 > p1], [0]
    otherwise. *)
Theorem single_round_trip df df' signal O (i j : nat) (p1 p2 : Qc) :
  backtest_frame df = true →
  with_signal df = Some df' → getitem df' "signal" = Some signal →
  getitem df "open" = Some O →
  (i < j)%nat → (j + 2 ≤ nrows df)%nat →
  (∀ t, (t < nrows df)%nat →
        signal !! t = Some (if decide (t = i) then num 1
                            else if decide (t = j) then num (-1)
                            else num 0)) →
  O !! (i + 1)%nat = Some (Fin p1) → 0 < p1 →
  O !! (j + 1)%nat = Some (Fin p2) → 0 < p2 →
  ∃ r, safe_backtest df = Some r ∧
       n_trades r = 2%nat ∧
       final_portfolio_value r = Fin (zq 100000 / p1 * p2) ∧
       win_rate r = if bool_decide (p1 < p2) then num 1 else num 0.
Proof.
  intros Hbf Hws Hsig HO Hij Hj Hsigs Hp1 Hp1pos Hp2 Hp2pos.
  destruct (backtest_frame_cols df Hbf) as (O' & C & V & M & Sg & E & Hc).
  destruct (with_signal_loop_frame df O' C V M Sg E Hc)
    as (df'' & Hws' & Hn & _ & HC & Hlf).
  assert (O' = O) as -> by (destruct Hc; congruence).
  assert (df'' = df') as -> by congruence.
  assert (signal_column M Sg C E V (nrows df) = signal) as Hcol
    by (destruct Hlf; congruence).
  rewrite Hcol in Hlf. clear Hcol.
  set (n := nrows df) in *.
  (* the loop *)
  assert (seq 0 (n - 1)
          = seq 0 i ++ [i] ++ seq (S i) (j - S i) ++ [j] ++ seq (S j) (n - 1 - S j))
    as Hseq.
  { replace (n - 1)%nat with (i + (1 + ((j - S i) + (1 + (n - 1 - S j)))))%nat
      by lia.
    rewrite !seq_app. simpl. repeat f_equal; lia. }
  assert (∀ a len st, (∀ t, a ≤ t < a + len → t ≠ i ∧ t ≠ j ∧ t + 1 < n)%nat →
            run_bars df' (seq a len) st = Some st) as Hidle.
  { intros a len st Hr. apply (run_bars_idle df' signal O n); [done|].
    apply Forall_seq. intros t Ht. destruct (Hr t) as (? & ? & ?); [lia|].
    split; [done|]. rewrite Hsigs by lia. by repeat case_decide. }
  destruct (loop_frame_step df' signal O n i initial_portfolio Hlf)
    as (s1 & pr1 & ts1 & Hs1 & Hpr1 & _ & Hstep1); [lia|].
  rewrite Hsigs in Hs1 by lia. rewrite decide_True in Hs1 by done.
  rewrite Hp1 in Hpr1. injection Hs1 as <-. injection Hpr1 as <-.
  unfold initial_portfolio in Hstep1.
  change (num 100000) with (Fin (zq 100000)) in Hstep1.
  rewrite bar_update_buy in Hstep1 by done.
  set (st1 := Portfolio (num 0) (Fin (zq 100000 / p1)) [(buy, ts1, Fin p1)]) in *.
  destruct (loop_frame_step df' signal O n j st1 Hlf)
    as (s2 & pr2 & ts2 & Hs2 & Hpr2 & _ & Hstep2); [lia|].
  rewrite Hsigs in Hs2 by lia.
  rewrite decide_False, decide_True in Hs2 by (done || lia).
  rewrite Hp2 in Hpr2. injection Hs2 as <-. injection Hpr2 as <-.
  unfold st1 in Hstep2.
  rewrite bar_update_sell in Hstep2
    by (done || by apply Qc_div_pos; [apply zq_pos|]).
  set (st2 := Portfolio (Fin (zq 100000 / p1 * p2)) (num 0)
                [(buy, ts1, Fin p1); (sell, ts2, Fin p2)]).
  assert (simulate df' = Some st2) as Hsim.
  { unfold simulate. rewrite Hn. fold n. rewrite Hseq.
    rewrite run_bars_app, Hidle by (intros; lia). simpl.
    unfold initial_portfolio. change (num 100000) with (Fin (zq 100000)).
    rewrite Hstep1. simpl.
    rewrite run_bars_app, Hidle by (intros; lia). simpl.
    unfold st1. rewrite Hstep2. simpl.
    rewrite Hidle by (intros; lia). done. }
  unfold safe_backtest. rewrite Hws; simpl. rewrite Hsim; simpl.
  unfold summary, final_value, count_wins. simpl.
  unfold win_step, fgt. simpl.
  destruct (bool_decide (p1 < p2)); simpl;
    (eexists; split; [done|]; simpl; repeat split;
     [by rewrite zq_0, Qcplus_0_r | by apply (bool_decide_unpack _)]).
Qed.

(** ** The statements on the sample frames *)

Lemma single_round_trip_witness :
  ∃ r, safe_backtest sample_round_trip = Some r ∧
       n_trades r = 2%nat ∧
       final_portfolio_value r = Fin (zq 100000 / zq 20 * zq 30) ∧
       win_rate r = if bool_decide (zq 20 < zq 30) then num 1 else num 0.
Proof.
  apply (single_round_trip sample_round_trip sample_round_trip_signal
           (floats [0; 1; -1; 0]%Z) (floats [10; 10; 20; 30]%Z) 1 2
           (zq 20) (zq 30)).
  - vm_compute. reflexivity.
  - vm_compute. reflexivity.
  - vm_compute. reflexivity.
  - vm_compute. reflexivity.
  - lia.
  - vm_compute. lia.
  - intros t Ht. vm_compute in Ht.
    destruct t as [|[|[|[|t]]]]; try reflexivity. lia.
  - reflexivity.
  - reflexivity.
  - reflexivity.
  - reflexivity.
Defined.

Lemma invalid_fill_skips_bar_witness :
  bar_step sample_missing_open 0 initial_portfolio = Some initial_portfolio ∧
  run_bars sample_missing_open [0; 1]%nat initial_portfolio
  = run_bars sample_missing_open [1]%nat initial_portfolio.
Proof.
  apply (invalid_fill_skips_bar sample_missing_open (floats [1; 1; 0]%Z)
           [num 10; NaN; num 12] 0 (num 1) NaN initial_portfolio [1]%nat);
    vm_compute; reflexivity.
Defined.

Lemma win_rate_in_unit_interval_witness :
  ∃ r df' st wins q,
    safe_backtest sample_open_position = Some r ∧
    with_signal sample_open_position = Some df' ∧ simulate df' = Some st ∧
    n_trades r = length (trades st) ∧
    count_wins (trades st) = Some wins ∧
    (wins ≤ n_trades r / 2)%nat ∧
    ((2 ≤ n_trades r)%nat →
       win_rate r = Fin (zq (Z.of_nat wins) / (zq (Z.of_nat (n_trades r)) / zq 2))) ∧
    ((n_trades r < 2)%nat → win_rate r = num 0) ∧
    win_rate r = Fin q ∧ 0 ≤ q ≤ 1.
Proof.
  apply (win_rate_in_unit_interval sample_open_position).
  vm_compute. reflexivity.
Defined.

Lemma first_bar_never_buys_witness :
  ∃ df' signal s0,
    with_signal sample_open_position = Some df' ∧
    getitem df' "signal" = Some signal ∧
    signal !! 0%nat = Some s0 ∧ s0 ≠ num 1 ∧
    (s0 = num 0 ∨ s0 = num (-1)) ∧
    bar_step df' 0 initial_portfolio = Some initial_portfolio.
Proof.
  apply (first_bar_never_buys sample_open_position).
  - vm_compute. reflexivity.
  - vm_compute. lia.
Defined.

Lemma portfolio_never_negative_witness :
  ∃ df', with_signal sample_open_position = Some df' ∧
    ∀ k, (k ≤ nrows sample_open_position - 1)%nat →
      ∃ st, run_bars df' (seq 0 k) initial_portfolio = Some st ∧
            nonneg (cash st) ∧ nonneg (position st).
Proof.
  apply (portfolio_never_negative sample_open_position);
    vm_compute; reflexivity.
Defined.

(** ** The exponential moving average *)

Lemma prep_values_fin (xs : list Qc) : prep_values (Fin <$> xs) = Fin <$> xs.
Proof. unfold prep_values. rewrite <-list_fmap_compose. by apply list_fmap_ext. Qed.

Lemma length_ema_rec_from a prev xs : length (ema_rec_from a prev xs) = length xs.
Proof. revert prev. induction xs as [|x xs IH]; intros prev; simpl; [done|]. by rewrite IH. Qed.

Lemma length_ema_rec a xs : length (ema_rec a xs) = length xs.
Proof. destruct xs; simpl; [done|]. by rewrite length_ema_rec_from. Qed.

Lemma ema_rec_from_step a prev xs t x y :
  xs !! (S t) = Some x → ema_rec_from a prev xs !! t = Some y →
  ema_rec_from a prev xs !! (S t) = Some (a * x + (1 - a) * y).
Proof.
  revert prev t. induction xs as [|x0 xs IH]; intros prev t Hx Hy; [done|].
  simpl in *. destruct t as [|t].
  - injection Hy as <-. destruct xs as [|x1 xs]; [done|].
    simpl in *. by injection Hx as ->.
  - by apply IH.
Qed.

Lemma ema_rec_step a xs t x y :
  xs !! (S t) = Some x → ema_rec a xs !! t = Some y →
  ema_rec a xs !! (S t) = Some (a * x + (1 - a) * y).
Proof.
  destruct xs as [|x0 xs]; [done|]. simpl. intros Hx Hy.
  destruct t as [|t].
  - injection Hy as <-. destruct xs as [|x1 xs]; [done|].
    simpl in *. by injection Hx as ->.
  - by apply ema_rec_from_step.
Qed.

(** One step of the routine on a present value, from a present average:
    the weights [old_wt * (1 - alpha)] and [alpha] add up to 1. *)
Lemma ewm_step_fin alpha w n x :
  ewm_step alpha (EwmState (Fin w) 1 n) (Fin x)
  = EwmState (Fin (alpha * x + (1 - alpha) * w)) 1 (n + 1).
Proof.
  unfold ewm_step.
  cbn [weighted old_wt nobs isnan negb feqb fmul fadd].
  destruct (bool_decide (w = x)) eqn:Hwx; cbn [negb].
  - apply bool_decide_eq_true in Hwx. subst x. do 2 f_equal. ring.
  - assert (1 * (1 - alpha) + alpha = 1) as -> by ring.
    rewrite fdiv_fin by (by apply Qc_pos_ne_0).
    do 2 f_equal. rewrite (right_id 1 Qcdiv). ring.
Qed.

Lemma ewm_loop_fin alpha w n xs :
  (1 ≤ n)%nat →
  ewm_loop alpha 1 (EwmState (Fin w) 1 n) (Fin <$> xs)
  = Fin <$> ema_rec_from alpha w xs.
Proof.
  revert w n. induction xs as [|x xs IH]; intros w n Hn; simpl; [done|].
  rewrite ewm_step_fin. f_equal.
  - unfold ewm_output. simpl. by rewrite decide_True by lia.
  - apply IH. lia.
Qed.

Lemma ewm_mean_com_fin com xs :
  ewm_mean_com com (Fin <$> xs) = Fin <$> ema_rec (1 / (1 + com)) xs.
Proof.
  unfold ewm_mean_com. rewrite prep_values_fin.
  destruct xs as [|x xs]; simpl; [done|].
  f_equal. by apply ewm_loop_fin.
Qed.

Lemma alpha_of_span (s : Z) :
  (1 ≤ s)%Z → 1 / (1 + (zq s - 1) / zq 2) = zq 2 / (zq s + 1).
Proof.
  intros Hs.
  assert (0 < zq s) as Hs0 by (apply zq_pos; lia).
  assert (zq 2 = 2) as -> by apply Z2Qc_inj_2.
  assert (zq s + 1 ≠ 0) as Hne.
  { apply Qc_pos_ne_0, Qcplus_pos_pos; [done|]. by apply (bool_decide_unpack _). }
  field. split; [exact Hne|done].
Qed.

(** C4: for every series of numbers and every span [s >= 1], [ema]
    returns the first-value-seeded recursion with [a = 2 / (s + 1)]: its
    value at bar 0 is the value of the series, and at every later bar
    [t] it is [a * x t + (1 - a) * ema (t - 1)]; that is, the pandas
    routine behind [ewm(span=s, adjust=False).mean()] computes the
    recursive reference definition [ema_rec]. *)
Theorem ema_first_value_seeded_recursion (xs : list Qc) (s : Z) :
  (1 ≤ s)%Z →
  ∃ ys : list Qc,
    ema (Fin <$> xs) s = Some (Fin <$> ys) ∧
    ys = ema_rec (zq 2 / (zq s + 1)) xs ∧
    length ys = length xs ∧
    ys !! 0%nat = xs !! 0%nat ∧
    ∀ t x y, xs !! (S t) = Some x → ys !! t = Some y →
             ys !! (S t) = Some (zq 2 / (zq s + 1) * x
                                 + (1 - zq 2 / (zq s + 1)) * y).
Proof.
  intros Hs. exists (ema_rec (zq 2 / (zq s + 1)) xs).
  split; [|split; [done|split; [apply length_ema_rec|split]]].
  - unfold ema, ewm_mean_span, com_of_span.
    rewrite decide_False by lia. simpl.
    by rewrite ewm_mean_com_fin, alpha_of_span.
  - by destruct xs.
  - intros t x y. apply ema_rec_step.
Qed.

(** ** The relative strength index *)

(** Linear arithmetic on [Qc], through [Q]. *)
Ltac qc_lra :=
  unfold Qcle, Qclt, Qcminus, Qcplus, Qcopp in *; simpl in *;
  rewrite ?Qred_correct in *; lra.

Lemma length_diff_from prev s : length (diff_from prev s) = length s.
Proof. revert prev. induction s as [|x s IH]; intros prev; simpl; [done|]. by rewrite IH. Qed.

Lemma length_diff s : length (diff s) = length s.
Proof. destruct s; simpl; [done|]. by rewrite length_diff_from. Qed.

Lemma length_rsi_up close : length (rsi_up close) = length close.
Proof. unfold rsi_up, fillna, clip_lower. by rewrite !length_fmap, length_diff. Qed.

Lemma length_rsi_down close : length (rsi_down close) = length close.
Proof.
  unfold rsi_down, scalar_mul, fillna, clip_upper.
  by rewrite !length_fmap, length_diff.
Qed.

Lemma nonneg_number_0 : nonneg_number (num 0).
Proof. exists (zq 0). split; [done|]. by rewrite zq_0. Qed.

(** The up-moves, as the averaging routine sees them. *)
Lemma prep_rsi_up close :
  Forall nonneg_or_missing (prep_values (rsi_up close)).
Proof.
  unfold prep_values, rsi_up, fillna, clip_lower.
  rewrite !Forall_fmap. apply Forall_forall. intros x _. simpl.
  destruct x as [| |q|]; simpl; try (right; apply nonneg_number_0); [|by left].
  case_bool_decide as Hq; simpl; [right; apply nonneg_number_0|].
  right. exists q. split; [done|]. rewrite zq_0 in Hq. by apply Qcnot_lt_le.
Qed.

(** The down-moves, as the averaging routine sees them. *)
Lemma prep_rsi_down close :
  Forall nonneg_or_missing (prep_values (rsi_down close)).
Proof.
  unfold prep_values, rsi_down, scalar_mul, fillna, clip_upper.
  rewrite !Forall_fmap. apply Forall_forall. intros x _. simpl.
  assert (nonneg_or_missing (Fin (zq (-1) * zq 0))) as H0.
  { right. eexists. split; [done|]. by apply (bool_decide_unpack _). }
  destruct x as [| |q|]; simpl; try done; [by left|].
  unfold fgt; simpl. case_bool_decide as Hq; simpl; [done|].
  right. eexists. split; [done|]. rewrite zq_0 in Hq.
  apply Qcnot_lt_le in Hq.
  assert (zq (-1) = - 1) as -> by (by apply Qc_is_canon).
  replace (-1 * q) with (- q) by ring. qc_lra.
Qed.

Lemma rsi_up_head c close :
  prep_values (rsi_up (c :: close)) !! 0%nat = Some (num 0).
Proof. done. Qed.

Lemma rsi_down_head c close :
  ∃ x, prep_values (rsi_down (c :: close)) !! 0%nat = Some x ∧ nonneg_number x.
Proof.
  eexists. split; [done|]. eexists. split; [done|].
  by apply (bool_decide_unpack _).
Qed.

Lemma ewm_step_nonneg alpha st cur :
  0 < alpha → alpha ≤ 1 → ewm_nonneg st → nonneg_or_missing cur →
  ewm_nonneg (ewm_step alpha st cur).
Proof.
  intros Ha0 Ha1 ((w & Hw & Hw0) & Ho & Hn) Hcur.
  destruct st as [wt o n]. simpl in *. subst wt.
  assert (0 ≤ 1 - alpha) as Ha by qc_lra.
  assert (0 ≤ o * (1 - alpha)) as Ho' by (by apply Qcmult_nonneg_nonneg).
  unfold ewm_step, ewm_nonneg. simpl.
  destruct Hcur as [-> | (x & -> & Hx)]; simpl.
  - repeat split; [by exists w | done | lia].
  - assert (0 < o * (1 - alpha) + alpha) as Hden by (by apply Qcplus_nonneg_pos).
    case_bool_decide as Hwx; simpl.
    + repeat split; [by exists w | by apply (bool_decide_unpack _) | lia].
    + rewrite decide_False by (by apply Qc_pos_ne_0).
      repeat split; [|by apply (bool_decide_unpack _)|lia].
      eexists. split; [done|].
      apply Qc_div_nonneg; [|done].
      apply Qcplus_nonneg_nonneg; apply Qcmult_nonneg_nonneg; try done.
      by apply Qclt_le_weak.
Qed.

Lemma ewm_loop_nonneg alpha st vals :
  0 < alpha → alpha ≤ 1 → ewm_nonneg st →
  Forall nonneg_or_missing vals →
  Forall nonneg_number (ewm_loop alpha 1 st vals).
Proof.
  intros Ha0 Ha1 Hst Hvals. revert st Hst.
  induction Hvals as [|cur vals Hcur _ IH]; intros st Hst; simpl; [done|].
  pose proof (ewm_step_nonneg alpha st cur Ha0 Ha1 Hst Hcur) as Hst'.
  constructor; [|by apply IH].
  destruct Hst' as (Hw & _ & Hn). unfold ewm_output.
  by rewrite decide_True.
Qed.

Lemma length_ewm_loop alpha minp st vals :
  length (ewm_loop alpha minp st vals) = length vals.
Proof.
  revert st. induction vals as [|x vals IH]; intros st; simpl; [done|].
  by rewrite IH.
Qed.

Lemma length_ewm_mean_com com s : length (ewm_mean_com com s) = length s.
Proof.
  unfold ewm_mean_com.
  assert (length (prep_values s) = length s) as <-
    by (unfold prep_values; by rewrite length_fmap).
  destruct (prep_values s); simpl; [done|]. by rewrite length_ewm_loop.
Qed.

(** The average of values that are missing or not negative, the first
    one present, holds numbers that are not negative. *)
Lemma ewm_mean_com_nonneg com s :
  0 ≤ com →
  Forall nonneg_or_missing (prep_values s) →
  (∀ x, prep_values s !! 0%nat = Some x → nonneg_number x) →
  Forall nonneg_number (ewm_mean_com com s).
Proof.
  intros Hcom Hvals Hhead. unfold ewm_mean_com.
  assert (0 < 1 + com) as Hd by qc_lra.
  assert (0 < 1 / (1 + com)) as Ha0
    by (apply Qc_div_pos; [by apply (bool_decide_unpack _)|done]).
  assert (1 / (1 + com) ≤ 1) as Ha1 by (apply Qc_div_le_1; [done|qc_lra]).
  destruct (prep_values s) as [|x0 vals]; [done|].
  destruct (Hhead x0 eq_refl) as (q0 & -> & Hq0).
  apply Forall_cons in Hvals as [_ Hvals]. simpl.
  constructor.
  - by exists q0.
  - apply ewm_loop_nonneg; try done.
    repeat split; [by exists q0|by apply (bool_decide_unpack _)|done].
Qed.

Lemma Qc_div_le_self (c d : Qc) : 0 ≤ c → 1 ≤ d → c / d ≤ c.
Proof.
  intros Hc Hd. assert (0 < d) as Hd0 by qc_lra.
  apply (Qcmult_le_mono_pos_r _ _ d); [done|].
  replace (c / d * d) with c by (field; by apply Qc_pos_ne_0).
  rewrite <-(Qcmult_1_r c) at 1. by apply Qcmult_le_mono_nonneg_l.
Qed.

Lemma in_0_100_50 : in_0_100 (num 50).
Proof. exists (zq 50). split; [done|]. split; by apply (bool_decide_unpack _). Qed.

(** A zero smoothed down-move gives exactly 50. *)
Lemma rsi_value_zero_down up : rsi_value up (num 0) = num 50.
Proof. unfold rsi_value. simpl. by destruct up. Qed.

(** The value of a bar lies in [0, 100]. *)
Lemma rsi_value_range up down :
  nonneg_number up → nonneg_number down → in_0_100 (rsi_value up down).
Proof.
  intros (a & -> & Ha) (b & -> & Hb). unfold rsi_value. simpl.
  case_bool_decide as Hb0; simpl; [apply in_0_100_50|].
  rewrite zq_0 in Hb0.
  assert (0 < b) as Hb1.
  { destruct (Qcle_lt_or_eq _ _ Hb) as [?|?]; [done|by subst]. }
  rewrite decide_False by (by apply Qc_pos_ne_0).
  pose proof (Qc_div_nonneg a b Ha Hb1) as Hrs.
  assert (1 ≤ zq 1 + a / b) as Hd by (rewrite zq_1; qc_lra).
  assert (0 < zq 1 + a / b) as Hd0 by qc_lra.
  rewrite decide_False by (by apply Qc_pos_ne_0). simpl.
  assert (0 < zq 100) as H100 by (by apply zq_pos).
  pose proof (Qc_div_pos (zq 100) (zq 1 + a / b) H100 Hd0) as Hy0.
  pose proof (Qc_div_le_self (zq 100) (zq 1 + a / b) (Qclt_le_weak _ _ H100) Hd)
    as Hy1.
  eexists. split; [done|]. split; qc_lra.
Qed.

Lemma rsi_zip up down :
  fillna (num 50)
    (scalar_sub (num 100)
       (scalar_div (num 100)
          (scalar_add (num 1) (sdiv up (replace (num 0) NaN down)))))
  = zip_with rsi_value up down.
Proof.
  unfold fillna, scalar_sub, scalar_div, scalar_add, sdiv, replace.
  revert down. induction up as [|u up IH]; intros [|d down]; simpl; try done.
  f_equal. apply IH.
Qed.

Lemma one_over_alpha (len : Z) :
  (1 ≤ len)%Z →
  ∃ alpha com,
    one_over len = Some alpha ∧ com_of_alpha alpha = Some com ∧ 0 ≤ com.
Proof.
  intros Hlen. unfold one_over. rewrite decide_False by lia.
  assert (0 < zq len) as Hl0 by (apply zq_pos; lia).
  assert (1 ≤ zq len) as Hl1 by (rewrite <-zq_1; apply zq_le; lia).
  assert (0 < 1 / zq len) as Ha0
    by (apply Qc_div_pos; [by apply (bool_decide_unpack _)|done]).
  assert (1 / zq len ≤ 1) as Ha1 by (by apply Qc_div_le_1).
  eexists _, _. split; [done|]. unfold com_of_alpha.
  rewrite decide_False.
  - split; [done|]. apply Qc_div_nonneg; [qc_lra|done].
  - intros [H|H]; [by apply Qcle_not_lt in H|by apply Qclt_not_le in H].
Qed.

(** [compute_rsi] on a series longer than [len]: the smoothed moves are
    numbers that are not negative, one per bar. *)
Lemma compute_rsi_long close (len : Z) :
  (1 ≤ len)%Z → ¬ (Z.of_nat (length close) < len + 1)%Z →
  ∃ alpha roll_up roll_down,
    one_over len = Some alpha ∧
    ewm_mean_alpha alpha (rsi_up close) = Some roll_up ∧
    ewm_mean_alpha alpha (rsi_down close) = Some roll_down ∧
    Forall nonneg_number roll_up ∧ Forall nonneg_number roll_down ∧
    length roll_up = length close ∧ length roll_down = length close ∧
    compute_rsi close len = Some (zip_with rsi_value roll_up roll_down).
Proof.
  intros Hlen Hlong.
  destruct (one_over_alpha len Hlen) as (alpha & com & Ha & Hcom & Hcom0).
  destruct close as [|c close]; [simpl in Hlong; lia|].
  set (U := ewm_mean_com com (rsi_up (c :: close))).
  set (D := ewm_mean_com com (rsi_down (c :: close))).
  assert (ewm_mean_alpha alpha (rsi_up (c :: close)) = Some U) as HU
    by (unfold ewm_mean_alpha; by rewrite Hcom).
  assert (ewm_mean_alpha alpha (rsi_down (c :: close)) = Some D) as HD
    by (unfold ewm_mean_alpha; by rewrite Hcom).
  exists alpha, U, D.
  split; [done|]. split; [done|]. split; [done|].
  split; [|split; [|split; [|split]]].
  - apply ewm_mean_com_nonneg; [done|apply prep_rsi_up|].
    intros x. rewrite rsi_up_head. intros [= <-]. apply nonneg_number_0.
  - apply ewm_mean_com_nonneg; [done|apply prep_rsi_down|].
    intros x Hx. destruct (rsi_down_head c close) as (x' & Hx' & ?). congruence.
  - unfold U. by rewrite length_ewm_mean_com, length_rsi_up.
  - unfold D. by rewrite length_ewm_mean_com, length_rsi_down.
  - unfold compute_rsi. rewrite decide_False by done.
    rewrite Ha. cbn [mbind option_bind]. rewrite HU. cbn [mbind option_bind].
    rewrite HD. cbn [mbind option_bind]. by rewrite rsi_zip.
Qed.

Lemma Forall_zip_with_2 {A B C} (P : A → Prop) (Q : B → Prop) (R : C → Prop)
    (f : A → B → C) l k :
  (∀ x y, P x → Q y → R (f x y)) →
  Forall P l → Forall Q k → Forall R (zip_with f l k).
Proof.
  intros Hf Hl. revert k. induction Hl as [|x l Hx _ IH]; intros k Hk; [done|].
  destruct Hk as [|y k Hy Hk]; simpl; [done|]. constructor; auto.
Qed.

(** [compute_rsi] returns one value per bar. *)
Lemma compute_rsi_runs close (len : Z) :
  (1 ≤ len)%Z →
  ∃ rsi, compute_rsi close len = Some rsi ∧ length rsi = length close.
Proof.
  intros Hlen.
  destruct (decide (Z.of_nat (length close) < len + 1)%Z) as [Hshort|Hlong].
  - exists (replicate (length close) (num 50)).
    unfold compute_rsi. rewrite decide_True by done.
    split; [done|]. by rewrite length_replicate.
  - destruct (compute_rsi_long close len Hlen Hlong)
      as (alpha & up & down & _ & _ & _ & _ & _ & Hlu & Hld & Hrsi).
    exists (zip_with rsi_value up down).
    split; [done|]. rewrite length_zip_with. lia.
Qed.

(** C6: for every close series (and every length of at least 1),
    [compute_rsi] returns one value per bar and every value lies in
    [0, 100].  On a series longer than the length the smoothed up-moves
    and down-moves are numbers that are not negative, and a bar whose
    smoothed down-move is zero gets exactly 50. *)
Theorem compute_rsi_range close (len : Z) :
  (1 ≤ len)%Z →
  ∃ rsi,
    compute_rsi close len = Some rsi ∧
    length rsi = length close ∧
    Forall in_0_100 rsi ∧
    ((len + 1 ≤ Z.of_nat (length close))%Z →
     ∃ alpha roll_up roll_down,
       one_over len = Some alpha ∧
       ewm_mean_alpha alpha (rsi_up close) = Some roll_up ∧
       ewm_mean_alpha alpha (rsi_down close) = Some roll_down ∧
       Forall nonneg_number roll_up ∧ Forall nonneg_number roll_down ∧
       ∀ t, roll_down !! t = Some (num 0) → rsi !! t = Some (num 50)).
Proof.
  intros Hlen.
  destruct (decide (Z.of_nat (length close) < len + 1)%Z) as [Hshort|Hlong].
  - exists (replicate (length close) (num 50)).
    unfold compute_rsi. rewrite decide_True by done.
    split; [done|]. split; [by rewrite length_replicate|].
    split; [|lia].
    apply Forall_replicate, in_0_100_50.
  - destruct (compute_rsi_long close len Hlen Hlong)
      as (alpha & up & down & Ha & Hup & Hdown & Hup0 & Hdown0 & Hlu & Hld & Hrsi).
    exists (zip_with rsi_value up down).
    split; [done|]. split; [rewrite length_zip_with; lia|].
    split.
    { apply (Forall_zip_with_2 nonneg_number nonneg_number); try done.
      apply rsi_value_range. }
    intros _. exists alpha, up, down. repeat split; try done.
    intros t Ht. rewrite lookup_zip_with, Ht.
    destruct (lookup_lt_is_Some_2 up t) as [u ->];
      [apply lookup_lt_Some in Ht; lia|].
    simpl. by rewrite rsi_value_zero_down.
Qed.

Lemma compute_rsi_range_witness :
  ∃ rsi,
    compute_rsi sample_closes 14 = Some rsi ∧
    length rsi = length sample_closes ∧
    Forall in_0_100 rsi ∧
    ((14 + 1 ≤ Z.of_nat (length sample_closes))%Z →
     ∃ alpha roll_up roll_down,
       one_over 14 = Some alpha ∧
       ewm_mean_alpha alpha (rsi_up sample_closes) = Some roll_up ∧
       ewm_mean_alpha alpha (rsi_down sample_closes) = Some roll_down ∧
       Forall nonneg_number roll_up ∧ Forall nonneg_number roll_down ∧
       ∀ t, roll_down !! t = Some (num 0) → rsi !! t = Some (num 50)).
Proof. apply (compute_rsi_range sample_closes 14). lia. Defined.

Lemma ema_first_value_seeded_recursion_witness :
  ∃ ys : list Qc,
    ema (Fin <$> [zq 10; zq 12; zq 11]) 10 = Some (Fin <$> ys) ∧
    ys = ema_rec (zq 2 / (zq 10 + 1)) [zq 10; zq 12; zq 11] ∧
    length ys = length [zq 10; zq 12; zq 11] ∧
    ys !! 0%nat = [zq 10; zq 12; zq 11] !! 0%nat ∧
    ∀ t x y, [zq 10; zq 12; zq 11] !! (S t) = Some x → ys !! t = Some y →
             ys !! (S t) = Some (zq 2 / (zq 10 + 1) * x
                                 + (1 - zq 2 / (zq 10 + 1)) * y).
Proof. apply (ema_first_value_seeded_recursion [zq 10; zq 12; zq 11] 10). lia. Defined.

(** ** The indicator engine *)

Lemma ema_runs s (span : Z) :
  (1 ≤ span)%Z → ema s span = Some (ewm_mean_com ((zq span - 1) / zq 2) s).
Proof.
  intros. unfold ema, ewm_mean_span, com_of_span. by rewrite decide_False by lia.
Qed.

Lemma length_cumsum_from acc s : length (cumsum_from acc s) = length s.
Proof. revert acc. induction s as [|x s IH]; intros acc; simpl; [done|]. by rewrite IH. Qed.

Lemma length_cumsum s : length (cumsum s) = length s.
Proof. apply length_cumsum_from. Qed.

Lemma length_ffill_from last s : length (ffill_from last s) = length s.
Proof. revert last. induction s as [|x s IH]; intros last; simpl; [done|]. by rewrite IH. Qed.

Lemma length_bfill s : length (bfill s) = length s.
Proof. unfold bfill, ffill. by rewrite length_reverse, length_ffill_from, length_reverse. Qed.

Lemma length_removelast {A} (l : list A) : length (removelast l) = pred (length l).
Proof.
  induction l as [|x l IH]; [done|]. destruct l as [|y l]; [done|].
  change (removelast (x :: y :: l)) with (x :: removelast (y :: l)).
  simpl in *. by rewrite IH.
Qed.

Lemma length_shift s : length (shift s) = length s.
Proof.
  destruct s as [|x s]; [done|]. unfold shift.
  change (length (NaN :: removelast (x :: s))) with (S (length (removelast (x :: s)))).
  by rewrite length_removelast.
Qed.

Lemma length_true_range (hi lo cl : series) n :
  length hi = n → length lo = n → length cl = n →
  length (true_range hi lo cl) = n.
Proof.
  intros. unfold true_range, row_max3, sabs, ssub.
  rewrite !length_zip_with, !length_fmap, !length_zip_with, length_shift. lia.
Qed.

Lemma length_signed_volume (cl vo : series) n :
  length cl = n → length vo = n → length (signed_volume cl vo) = n.
Proof.
  intros. unfold signed_volume, smul, sub_scalar, mul_scalar, astype_int,
    gt_scalar, fillna.
  rewrite length_zip_with, !length_fmap, length_diff. lia.
Qed.

Lemma length_cumsum_int64_from acc s :
  length (cumsum_int64_from acc s) = length s.
Proof. revert acc. induction s as [|x s IH]; intros acc; simpl; [done|]. by rewrite IH. Qed.

Lemma length_cumsum_uint64_from acc s :
  length (cumsum_uint64_from acc s) = length s.
Proof. revert acc. induction s as [|x s IH]; intros acc; simpl; [done|]. by rewrite IH. Qed.

Lemma length_cumsum_as dt s : length (cumsum_as dt s) = length s.
Proof.
  destruct dt;
    [apply length_cumsum | apply length_cumsum_int64_from
    | apply length_cumsum_uint64_from].
Qed.

Lemma length_signed_volume_as dt (cl vo : series) n :
  length cl = n → length vo = n → length (signed_volume_as dt cl vo) = n.
Proof.
  intros. destruct dt; [by apply length_signed_volume| |by apply length_signed_volume].
  unfold signed_volume_as, signed_volume_int64, smul_int64, sub_scalar,
    mul_scalar, astype_int, gt_scalar, fillna.
  rewrite length_zip_with, !length_fmap, length_diff. lia.
Qed.

Lemma length_vwap dt (hi lo cl vo : series) n :
  length hi = n → length lo = n → length cl = n → length vo = n →
  length (bfill (ffill (sdiv (cumsum (smul (div_scalar (sadd (sadd hi lo) cl)
                                                       (num 3)) vo))
                             (replace (num 0) NaN (cumsum_as dt vo))))) = n.
Proof.
  intros. rewrite length_bfill. unfold ffill. rewrite length_ffill_from.
  unfold sdiv, smul, replace, div_scalar, sadd.
  rewrite length_zip_with, length_fmap, length_cumsum_as, length_cumsum,
    length_zip_with, length_fmap, !length_zip_with. lia.
Qed.

Lemma volume_dtype_setitem name s df :
  volume_dtype (setitem name s df) = volume_dtype df.
Proof. done. Qed.

Lemma bars_frame_cols df :
  bars_frame df = true → ∃ op hi lo cl vo, bars_cols df op hi lo cl vo.
Proof.
  unfold bars_frame. simpl. rewrite !andb_true_iff.
  intros (Hop & Hhi & Hlo & Hcl & Hvo & _).
  apply col_ok_spec in Hop as (op & Hop1 & Hop2), Hhi as (hi & Hhi1 & Hhi2).
  apply col_ok_spec in Hlo as (lo & Hlo1 & Hlo2), Hcl as (cl & Hcl1 & Hcl2).
  apply col_ok_spec in Hvo as (vo & Hvo1 & Hvo2).
  by exists op, hi, lo, cl, vo.
Qed.

Arguments ewm_mean_com : simpl never.
Arguments rolling_mean : simpl never.
Arguments true_range : simpl never.
Arguments signed_volume : simpl never.
Arguments cumsum : simpl never.
Arguments cumsum_as : simpl never.
Arguments signed_volume_as : simpl never.
Arguments compute_rsi : simpl never.
Arguments bfill : simpl never.
Arguments ffill : simpl never.
Arguments ssub : simpl never.
Arguments sdiv : simpl never.
Arguments smul : simpl never.
Arguments sadd : simpl never.
Arguments div_scalar : simpl never.
Arguments replace : simpl never.
Arguments frame_replace_inf : simpl never.
Arguments setitem : simpl never.

(** The engine returns on every bar series, and its result is the input
    with the indicator columns assigned and the infinities replaced. *)
Lemma compute_all_indicators_eq df op hi lo cl vo :
  bars_cols df op hi lo cl vo →
  ∃ rsi ml ms mh e10 e100 vwap,
    compute_rsi cl 14 = Some rsi ∧
    macd df 12 26 9 = Some (ml, ms, mh) ∧
    ema cl 10 = Some e10 ∧ ema cl 100 = Some e100 ∧
    compute_vwap df = Some vwap ∧
    Forall (λ c : series, length c = nrows df)
           [rsi; ml; ms; mh; e10; e100; vwap] ∧
    compute_all_indicators df
    = Some (frame_replace_inf
              (indicator_columns rsi ml ms mh e10 e100 vwap
                 (signed_volume_as (volume_dtype df) cl vo)
                 (cumsum_as (result_type int64 (volume_dtype df))
                    (signed_volume_as (volume_dtype df) cl vo))
                 (true_range hi lo cl)
                 (rolling_mean 14 1 (true_range hi lo cl)) df)).
Proof.
  intros [Hop Hhi Hlo Hcl Hvo Lop Lhi Llo Lcl Lvo].
  destruct (compute_rsi_runs cl 14) as (rsi & Hrsi & Lrsi); [lia|].
  eexists rsi, _, _, _, _, _, _.
  split; [done|].
  split. { unfold macd. rewrite Hcl. simpl. reflexivity. }
  split. { by apply ema_runs. }
  split. { by apply ema_runs. }
  split. { unfold compute_vwap. rewrite Hhi, Hlo, Hcl, Hvo. simpl. reflexivity. }
  split.
  { repeat constructor; unfold ssub;
      rewrite ?length_zip_with, ?length_ewm_mean_com, ?length_zip_with,
        ?length_ewm_mean_com; try lia.
    by apply length_vwap. }
  unfold compute_all_indicators, macd, compute_vwap.
  repeat first
    [ rewrite getitem_setitem
    | rewrite volume_dtype_setitem
    | rewrite Hcl | rewrite Hhi | rewrite Hlo | rewrite Hvo | rewrite Hrsi
    | progress simpl ].
  reflexivity.
Qed.

Lemma getitem_replace_inf df name :
  getitem (frame_replace_inf df) name = replace_inf <$> getitem df name.
Proof. unfold getitem, frame_replace_inf. simpl. apply lookup_fmap. Qed.

(** The columns of the frame with the indicators. *)
Lemma getitem_indicator_columns
    rsi ml ms mh e10 e100 vwap obv0 obv tr atr df name :
  getitem (indicator_columns rsi ml ms mh e10 e100 vwap obv0 obv tr atr df) name
  = if decide (name = "ATR_14") then Some atr
    else if decide (name = "TR") then Some tr
    else if decide (name = "OBV") then Some obv
    else if decide (name = "VWAP") then Some vwap
    else if decide (name = "EMA_100") then Some e100
    else if decide (name = "EMA_10") then Some e10
    else if decide (name = "MACD_hist") then Some mh
    else if decide (name = "MACD_signal") then Some ms
    else if decide (name = "MACD") then Some ml
    else if decide (name = "RSI") then Some rsi
    else getitem df name.
Proof.
  unfold indicator_columns. rewrite !getitem_setitem.
  repeat case_decide; congruence.
Qed.

(** The true range of the first bar: the previous close is missing and
    drops out of the maximum. *)
Lemma true_range_head h hi l lo c cl :
  true_range (h :: hi) (l :: lo) (c :: cl) !! 0%nat = Some (fsub h l).
Proof.
  unfold true_range, row_max3, sabs, ssub, shift.
  cbn [zip_with fmap list_fmap lookup list_lookup].
  f_equal. unfold fmax_skipna. by destruct h, l.
Qed.

Lemma rolling_mean_head w x s :
  (0 < w)%nat → s !! 0%nat = Some x →
  rolling_mean w 1 s !! 0%nat = Some (if isinf x then NaN else x).
Proof.
  intros Hw Hx. destruct s as [|x' s]; [done|]. injection Hx as ->.
  rewrite rolling_mean_lookup by (simpl; lia).
  unfold trailing, prep_values.
  replace (1 - w)%nat with 0%nat by lia.
  cbn [fmap list_fmap take drop]. by rewrite window_mean_single.
Qed.

(** Decide the equalities of column names in the goal. *)
Ltac col_decide :=
  repeat first [rewrite decide_True by done | rewrite decide_False by done].

Lemma replace_inf_fsub h l :
  (if isinf (fsub h l) then NaN else fsub h l)
  = fsub (if isinf h then NaN else h) (if isinf l then NaN else l).
Proof. by destruct h, l. Qed.

(** C7: on every non-empty series the true range of the first bar is
    [high 0 - low 0], the previous close being missing, and the 14-bar
    minimum-period average of the first bar equals it:
    [ATR_14 0 = TR 0 = high 0 - low 0] in the frame the engine returns.
    When the first high and low are numbers [a] and [b] both are the
    number [a - b], not a missing value. *)
Theorem first_bar_true_range df :
  bars_frame df = true → (0 < nrows df)%nat →
  ∃ out hi lo tr atr h l,
    compute_all_indicators df = Some out ∧
    getitem out "high" = Some hi ∧ getitem out "low" = Some lo ∧
    getitem out "TR" = Some tr ∧ getitem out "ATR_14" = Some atr ∧
    hi !! 0%nat = Some h ∧ lo !! 0%nat = Some l ∧
    tr !! 0%nat = Some (fsub h l) ∧
    atr !! 0%nat = tr !! 0%nat ∧
    ∀ hi0 lo0 (a b : Qc),
      getitem df "high" = Some hi0 → getitem df "low" = Some lo0 →
      hi0 !! 0%nat = Some (Fin a) → lo0 !! 0%nat = Some (Fin b) →
      tr !! 0%nat = Some (Fin (a - b)) ∧ atr !! 0%nat = Some (Fin (a - b)).
Proof.
  intros Hbf Hn.
  destruct (bars_frame_cols df Hbf) as (op & hi & lo & cl & vo & Hc).
  destruct (compute_all_indicators_eq df op hi lo cl vo Hc)
    as (rsi & ml & ms & mh & e10 & e100 & vwap & _ & _ & _ & _ & _ & _ & Hout).
  destruct Hc as [Hop Hhi Hlo Hcl Hvo Lop Lhi Llo Lcl Lvo].
  destruct hi as [|h hi]; [simpl in Lhi; lia|].
  destruct lo as [|l lo]; [simpl in Llo; lia|].
  destruct cl as [|c cl]; [simpl in Lcl; lia|].
  pose proof (true_range_head h hi l lo c cl) as Htr.
  set (tr := true_range (h :: hi) (l :: lo) (c :: cl)) in *.
  pose proof (rolling_mean_head 14 (fsub h l) tr ltac:(lia) Htr) as Hatr.
  set (atr := rolling_mean 14 1 tr) in *.
  eexists _, (replace_inf (h :: hi)), (replace_inf (l :: lo)),
    (replace_inf tr), (replace_inf atr),
    (if isinf h then NaN else h), (if isinf l then NaN else l).
  split; [exact Hout|].
  rewrite !getitem_replace_inf, !getitem_indicator_columns. col_decide.
  rewrite Hhi, Hlo.
  split; [done|]. split; [done|]. split; [done|]. split; [done|].
  split; [done|]. split; [done|].
  unfold replace_inf at 1 2 3. rewrite !list_lookup_fmap, Htr, Hatr.
  cbn [fmap option_fmap option_map].
  split; [by rewrite replace_inf_fsub|].
  split; [f_equal; by destruct (fsub h l)|].
  intros hi0 lo0 a b [= <-] [= <-] [= ->] [= ->]. done.
Qed.

Lemma first_bar_true_range_witness :
  ∃ out hi lo tr atr h l,
    compute_all_indicators sample_bars = Some out ∧
    getitem out "high" = Some hi ∧ getitem out "low" = Some lo ∧
    getitem out "TR" = Some tr ∧ getitem out "ATR_14" = Some atr ∧
    hi !! 0%nat = Some h ∧ lo !! 0%nat = Some l ∧
    tr !! 0%nat = Some (fsub h l) ∧
    atr !! 0%nat = tr !! 0%nat ∧
    ∀ hi0 lo0 (a b : Qc),
      getitem sample_bars "high" = Some hi0 →
      getitem sample_bars "low" = Some lo0 →
      hi0 !! 0%nat = Some (Fin a) → lo0 !! 0%nat = Some (Fin b) →
      tr !! 0%nat = Some (Fin (a - b)) ∧ atr !! 0%nat = Some (Fin (a - b)).
Proof.
  apply (first_bar_true_range sample_bars).
  - vm_compute. reflexivity.
  - vm_compute. lia.
Defined.

(** ** On-balance volume *)

Lemma lookup_diff_from prev s t c0 c1 :
  (prev :: s) !! t = Some c0 → s !! t = Some c1 →
  diff_from prev s !! t = Some (fsub c1 c0).
Proof.
  revert prev t. induction s as [|x s IH]; intros prev t H0 H1; [done|].
  destruct t as [|t]; simpl in *.
  - by simplify_eq.
  - by apply IH.
Qed.

Lemma lookup_diff_0 s c : s !! 0%nat = Some c → diff s !! 0%nat = Some NaN.
Proof. by destruct s. Qed.

Lemma lookup_diff_S s t c0 c1 :
  s !! t = Some c0 → s !! (S t) = Some c1 →
  diff s !! (S t) = Some (fsub c1 c0).
Proof.
  destruct s as [|x s]; [done|]. simpl. intros H0 H1.
  by apply lookup_diff_from.
Qed.








(** *** The int64 volume column *)


Lemma wrap64_range z : in_int64 (wrap64 z).
Proof.
  unfold in_int64, wrap64.
  pose proof (Z.mod_pos_bound (z + 2 ^ 63) (2 ^ 64) ltac:(done)). lia.
Qed.





Lemma zq_add a b : zq (a + b) = zq a + zq b.
Proof. apply Z2Qc_inj_add. Qed.














(** ** The engine on frame objects *)

Lemma obj_copy r f (σ : gmap positive frame) :
  σ !! r = Some f →
  Obj.copy r σ = Some (Obj.new_ref σ, <[Obj.new_ref σ := f]> σ).
Proof. intros H. unfold Obj.copy, Obj.bind, Obj.read, Obj.alloc. by rewrite H. Qed.

Lemma obj_getitem r f (σ : gmap positive frame) name :
  Obj.getitem r name (<[r := f]> σ)
  = (s ← getitem f name; Some (s, <[r := f]> σ)).
Proof.
  unfold Obj.getitem, Obj.bind, Obj.read, Obj.lift.
  rewrite lookup_insert_eq. by destruct (getitem f name).
Qed.

Lemma obj_setitem r f (σ : gmap positive frame) name s :
  Obj.setitem r name s (<[r := f]> σ) = Some ((), <[r := setitem name s f]> σ).
Proof. unfold Obj.setitem. by rewrite lookup_insert_eq, insert_insert_eq. Qed.

Lemma obj_macd r f (σ : gmap positive frame) fast slow signal :
  Obj.macd r fast slow signal (<[r := f]> σ)
  = (m ← macd f fast slow signal; Some (m, <[r := f]> σ)).
Proof.
  unfold Obj.macd, Obj.bind, Obj.read, Obj.lift.
  rewrite lookup_insert_eq. by destruct (macd f fast slow signal).
Qed.

Lemma obj_compute_vwap r f (σ : gmap positive frame) :
  Obj.compute_vwap r (<[r := f]> σ)
  = (v ← compute_vwap f; Some (v, <[r := f]> σ)).
Proof.
  unfold Obj.compute_vwap, Obj.bind, Obj.read, Obj.lift.
  rewrite lookup_insert_eq. by destruct (compute_vwap f).
Qed.

Lemma obj_replace_inf r f (σ : gmap positive frame) :
  Obj.replace_inf r (<[r := f]> σ)
  = Some (Obj.new_ref (<[r := f]> σ),
          <[Obj.new_ref (<[r := f]> σ) := frame_replace_inf f]> (<[r := f]> σ)).
Proof.
  unfold Obj.replace_inf, Obj.bind, Obj.read, Obj.alloc.
  by rewrite lookup_insert_eq.
Qed.

Lemma macd_setitem name s df fast slow signal :
  name ≠ "close" → macd (setitem name s df) fast slow signal = macd df fast slow signal.
Proof. intros. unfold macd. by rewrite getitem_setitem_ne. Qed.

Lemma compute_vwap_setitem name s df :
  name ≠ "close" → name ≠ "high" → name ≠ "low" → name ≠ "volume" →
  compute_vwap (setitem name s df) = compute_vwap df.
Proof.
  intros. unfold compute_vwap.
  by rewrite !getitem_setitem_ne, volume_dtype_setitem.
Qed.

Lemma obj_volume_dtype r f (σ : gmap positive frame) :
  Obj.volume_dtype r (<[r := f]> σ) = Some (volume_dtype f, <[r := f]> σ).
Proof.
  unfold Obj.volume_dtype, Obj.bind, Obj.read, Obj.ret.
  by rewrite lookup_insert_eq.
Qed.

Lemma obj_compute_all_indicators (σ : gmap positive frame) r df op hi lo cl vo :
  σ !! r = Some df → bars_cols df op hi lo cl vo →
  ∃ rsi ml ms mh e10 e100 vwap pre,
    pre = indicator_columns rsi ml ms mh e10 e100 vwap
            (signed_volume_as (volume_dtype df) cl vo)
            (cumsum_as (result_type int64 (volume_dtype df))
               (signed_volume_as (volume_dtype df) cl vo))
            (true_range hi lo cl)
            (rolling_mean 14 1 (true_range hi lo cl)) df ∧
    Forall (λ c : series, length c = nrows df)
           [rsi; ml; ms; mh; e10; e100; vwap] ∧
    compute_all_indicators df = Some (frame_replace_inf pre) ∧
    Obj.compute_all_indicators r σ
    = Some (Obj.new_ref (<[Obj.new_ref σ := pre]> σ),
            <[Obj.new_ref (<[Obj.new_ref σ := pre]> σ) := frame_replace_inf pre]>
              (<[Obj.new_ref σ := pre]> σ)).
Proof.
  intros Hr Hc.
  destruct (compute_all_indicators_eq df op hi lo cl vo Hc)
    as (rsi & ml & ms & mh & e10 & e100 & vwap
        & Hrsi & Hmacd & He10 & He100 & Hvwap & Hlens & Hout).
  destruct Hc as [Hop Hhi Hlo Hcl Hvo Lop Lhi Llo Lcl Lvo].
  eexists rsi, ml, ms, mh, e10, e100, vwap, _.
  split; [reflexivity|]. split; [exact Hlens|]. split; [exact Hout|].
  unfold Obj.compute_all_indicators.
  unfold Obj.bind at 1. rewrite (obj_copy r df σ Hr).
  set (r1 := Obj.new_ref σ).
  repeat first
    [ progress (unfold Obj.bind at 1)
    | rewrite obj_getitem | rewrite obj_setitem | rewrite obj_macd
    | rewrite obj_compute_vwap | rewrite obj_replace_inf
    | rewrite obj_volume_dtype
    | rewrite getitem_setitem
    | rewrite volume_dtype_setitem
    | rewrite macd_setitem by done
    | rewrite compute_vwap_setitem by done
    | rewrite Hcl | rewrite Hhi | rewrite Hlo | rewrite Hvo | rewrite Hrsi
    | rewrite Hmacd | rewrite He10 | rewrite He100 | rewrite Hvwap
    | progress cbn [mbind option_bind Obj.lift Obj.ret]
    | progress col_decide ].
  reflexivity.
Qed.

Lemma new_ref_fresh (σ : gmap positive frame) : σ !! Obj.new_ref σ = None.
Proof.
  unfold Obj.new_ref. apply not_elem_of_dom. exact (is_fresh (dom σ)).
Qed.

Lemma wf_frame_lookup df name c :
  wf_frame df = true → getitem df name = Some c → length c = nrows df.
Proof.
  unfold wf_frame, getitem. rewrite forallb_forall. intros Hwf Hc.
  apply elem_of_map_to_list, list_elem_of_In in Hc.
  specialize (Hwf _ Hc). by apply bool_decide_eq_true in Hwf.
Qed.

Lemma replace_inf_no_inf s : no_inf (replace_inf s).
Proof.
  unfold no_inf, replace_inf. rewrite Forall_fmap.
  apply Forall_forall. intros x _. simpl. by destruct x.
Qed.

Lemma replace_inf_id s : no_inf s → replace_inf s = s.
Proof.
  unfold no_inf, replace_inf. induction 1 as [|x s Hx _ IH]; [done|].
  simpl. rewrite Hx. by f_equal.
Qed.

Lemma length_replace_inf s : length (replace_inf s) = length s.
Proof. unfold replace_inf. by rewrite length_fmap. Qed.

(** The columns of the frame with the indicators have one value per
    row. *)
Lemma indicator_columns_lengths df op hi lo cl vo
    rsi ml ms mh e10 e100 vwap name c :
  wf_frame df = true → bars_cols df op hi lo cl vo →
  Forall (λ c : series, length c = nrows df)
         [rsi; ml; ms; mh; e10; e100; vwap] →
  getitem (indicator_columns rsi ml ms mh e10 e100 vwap
             (signed_volume_as (volume_dtype df) cl vo)
             (cumsum_as (result_type int64 (volume_dtype df))
                (signed_volume_as (volume_dtype df) cl vo))
             (true_range hi lo cl)
             (rolling_mean 14 1 (true_range hi lo cl)) df) name = Some c →
  length c = nrows df.
Proof.
  intros Hwf [Hop Hhi Hlo Hcl Hvo Lop Lhi Llo Lcl Lvo] Hlens.
  rewrite !Forall_cons in Hlens.
  destruct Hlens as (? & ? & ? & ? & ? & ? & ? & _).
  rewrite getitem_indicator_columns.
  repeat case_decide; try (intros [= <-]; done).
  - intros [= <-]. rewrite length_rolling_mean. by apply length_true_range.
  - intros [= <-]. by apply length_true_range.
  - intros [= <-]. rewrite length_cumsum_as. by apply length_signed_volume_as.
  - by apply wf_frame_lookup.
Qed.

(** C9: for every well-formed bar series held by the caller at the
    reference [r], the engine returns the reference [r'] of a new frame:
    [r'] was not in the store, no frame that was in the store has changed
    (the frame of the caller is not mutated), the new frame has the index
    of the input and a value for every row in every column (no row is
    dropped), no value of it is infinite (the infinities became missing
    values), and its columns [open], [high], [low], [close], [volume] are
    those of the input, unchanged when they hold no infinite value. *)
Theorem compute_all_indicators_new_frame (σ : gmap positive frame) r df :
  σ !! r = Some df → bars_frame df = true → wf_frame df = true →
  ∃ r' σ' out,
    Obj.compute_all_indicators r σ = Some (r', σ') ∧
    compute_all_indicators df = Some out ∧
    σ !! r' = None ∧ σ' !! r' = Some out ∧
    (∀ r0 f, σ !! r0 = Some f → σ' !! r0 = Some f) ∧
    index out = index df ∧
    (∀ name col, getitem out name = Some col →
                 length col = nrows df ∧ no_inf col) ∧
    (∀ name col,
        name ∈ ["open"; "high"; "low"; "close"; "volume"] →
        getitem df name = Some col →
        getitem out name = Some (replace_inf col) ∧
        (no_inf col → getitem out name = Some col)).
Proof.
  intros Hr Hbf Hwf.
  destruct (bars_frame_cols df Hbf) as (op & hi & lo & cl & vo & Hc).
  destruct (obj_compute_all_indicators σ r df op hi lo cl vo Hr Hc)
    as (rsi & ml & ms & mh & e10 & e100 & vwap & pre
        & Hpre & Hlens & Hout & Hobj).
  pose proof (new_ref_fresh σ) as Hr1.
  pose proof (new_ref_fresh (<[Obj.new_ref σ:=pre]> σ)) as Hr2.
  set (r1 := Obj.new_ref σ) in *.
  set (r2 := Obj.new_ref (<[r1:=pre]> σ)) in *.
  apply lookup_insert_None in Hr2 as [Hr2 Hr12].
  exists r2, (<[r2:=frame_replace_inf pre]> (<[r1:=pre]> σ)),
    (frame_replace_inf pre).
  split; [done|]. split; [done|]. split; [done|].
  split; [apply lookup_insert_eq|]. split; [|split; [by rewrite Hpre|split]].
  - intros r0 f Hf.
    rewrite !lookup_insert_ne by congruence. done.
  - intros name col. rewrite getitem_replace_inf.
    destruct (getitem pre name) as [c|] eqn:Hcol; [|done].
    intros [= <-]. split; [|apply replace_inf_no_inf].
    rewrite length_replace_inf. rewrite Hpre in Hcol.
    by eapply indicator_columns_lengths.
  - intros name col Hname Hcol.
    assert (getitem (frame_replace_inf pre) name = Some (replace_inf col)) as Hg.
    { rewrite getitem_replace_inf, Hpre, getitem_indicator_columns.
      rewrite !elem_of_cons in Hname.
      destruct Hname as [->|[->|[->|[->|[->|Hn]]]]];
        [..|by apply elem_of_nil in Hn]; col_decide; by rewrite Hcol. }
    split; [done|]. intros Hni. by rewrite Hg, replace_inf_id.
Qed.

Lemma compute_all_indicators_new_frame_witness :
  ∃ r' σ' out,
    Obj.compute_all_indicators 1%positive {[ 1%positive := sample_bars ]}
    = Some (r', σ') ∧
    compute_all_indicators sample_bars = Some out ∧
    ({[ 1%positive := sample_bars ]} : gmap positive frame) !! r' = None ∧
    σ' !! r' = Some out ∧
    (∀ r0 f, ({[ 1%positive := sample_bars ]} : gmap positive frame) !! r0 = Some f →
             σ' !! r0 = Some f) ∧
    index out = index sample_bars ∧
    (∀ name col, getitem out name = Some col →
                 length col = nrows sample_bars ∧ no_inf col) ∧
    (∀ name col,
        name ∈ ["open"; "high"; "low"; "close"; "volume"] →
        getitem sample_bars name = Some col →
        getitem out name = Some (replace_inf col) ∧
        (no_inf col → getitem out name = Some col)).
Proof.
  apply (compute_all_indicators_new_frame {[ 1%positive := sample_bars ]}
           1%positive sample_bars).
  - vm_compute. reflexivity.
  - vm_compute. reflexivity.
  - vm_compute. reflexivity.
Defined.

(** ** From the engine to the backtest *)



(** ** The trade log of the backtest *)

Lemma run_bars_seq_invariant (Q : nat → portfolio → Prop) df signal O n k st0 :
  loop_frame df signal O n → (k ≤ n - 1)%nat → Q 0%nat st0 →
  (∀ i sig price ts st,
      (i + 1 < n)%nat → signal !! i = Some sig →
      O !! (i + 1)%nat = Some price → index df !! (i + 1)%nat = Some ts →
      Q i st → Q (S i) (bar_update sig price ts st)) →
  ∃ st, run_bars df (seq 0 k) st0 = Some st ∧ Q k st.
Proof.
  intros Hlf Hk H0 Hstep. induction k as [|k IH]; [by exists st0|].
  destruct IH as (st & Hrun & HQ); [lia|].
  rewrite seq_S, run_bars_app, Hrun. simpl.
  destruct (loop_frame_step df signal O n k st Hlf)
    as (sig & price & ts & Hsig & Hp & Hts & ->); [lia|].
  simpl. eexists. split; [done|]. apply Hstep; (done || lia).
Qed.

(** What one iteration does to the trade log. *)
Lemma bar_update_trades sig price ts st :
  trades (bar_update sig price ts st) = trades st ∨
  (invalid_fill price = false ∧
   ∃ sd, trades (bar_update sig price ts st) = trades st ++ [(sd, ts, price)]).
Proof.
  unfold bar_update. fold (invalid_fill price).
  destruct (feqb sig (num 1) && feqb (position st) (num 0)).
  - destruct (invalid_fill price) eqn:Hv; [by left|]. right. split; [done|].
    by exists buy.
  - destruct (feqb sig (num (-1)) && fgt (position st) (num 0)); [|by left].
    destruct (invalid_fill price) eqn:Hv; [by left|]. right. split; [done|].
    by exists sell.
Qed.

Lemma fadd_num_0_r (q : Qc) : fadd (Fin q) (num 0) = Fin q.
Proof. unfold num. cbn [fadd]. by rewrite zq_0, Qcplus_0_r. Qed.

Lemma fadd_num_0_l (q : Qc) : fadd (num 0) (Fin q) = Fin q.
Proof. unfold num. cbn [fadd]. by rewrite zq_0, Qcplus_0_l. Qed.

(** The summary of a run that ends flat with an empty log. *)
Lemma summary_no_trades df c :
  summary df (Portfolio (Fin c) (num 0) []) = Some (Result (Fin c) 0 (num 0) []).
Proof.
  unfold summary, final_value. cbn [position cash trades truthy].
  change (truthy (num 0)) with false. cbn [mbind option_bind].
  by rewrite fadd_num_0_r.
Qed.

(** X1: when the signal of every bar but the last is [0] the backtest
    makes no trade: it returns the initial cash [100000] as the final
    value, [0] trades, the win rate [0] and an empty sample. *)
Theorem no_signal_no_trades df df' signal :
  backtest_frame df = true →
  with_signal df = Some df' → getitem df' "signal" = Some signal →
  (∀ t, (t + 1 < nrows df)%nat → signal !! t = Some (num 0)) →
  safe_backtest df = Some (Result (num 100000) 0 (num 0) []).
Proof.
  intros Hbf Hws Hsig Hzero.
  destruct (backtest_frame_cols df Hbf) as (O & C & V & M & Sg & E & Hc).
  destruct (with_signal_loop_frame df O C V M Sg E Hc)
    as (df'' & Hws' & Hn & _ & HC & Hlf).
  assert (df'' = df') as -> by congruence.
  assert (signal_column M Sg C E V (nrows df) = signal) as Hcol
    by (destruct Hlf; congruence).
  rewrite Hcol in Hlf.
  unfold safe_backtest. rewrite Hws. cbn [mbind option_bind].
  unfold simulate. rewrite Hn.
  rewrite (run_bars_idle df' signal O (nrows df)); [|done|].
  - cbn [mbind option_bind]. apply summary_no_trades.
  - apply Forall_seq. intros t Ht. split; [lia|]. apply Hzero. lia.
Qed.

Lemma StronglySorted_lookup_lt (l : list Z) i j x y :
  StronglySorted Z.lt l → l !! i = Some x → l !! j = Some y → (i < j)%nat →
  (x < y)%Z.
Proof.
  intros Hs Hi Hj Hij. rewrite <-(take_drop j l) in Hs.
  apply (StronglySorted_app_1_elem_of _ _ _ x y Hs).
  - apply list_elem_of_lookup. exists i. by rewrite lookup_take_lt.
  - apply list_elem_of_lookup. exists 0%nat. rewrite lookup_drop.
    by rewrite Nat.add_0_r.
Qed.

(** The loop of [safe_backtest] on a frame with its columns, with a
    property of the state that holds after [i] iterations. *)
Lemma simulate_invariant (Q : nat → portfolio → Prop) df :
  backtest_frame df = true →
  Q 0%nat initial_portfolio →
  (∀ O, getitem df "open" = Some O →
     ∀ i sig price ts st,
       (i + 1 < nrows df)%nat → O !! (i + 1)%nat = Some price →
       index df !! (i + 1)%nat = Some ts →
       Q i st → Q (S i) (bar_update sig price ts st)) →
  ∃ df' st, with_signal df = Some df' ∧ simulate df' = Some st ∧
            Q (nrows df - 1)%nat st.
Proof.
  intros Hbf H0 Hstep.
  destruct (backtest_frame_cols df Hbf) as (O & C & V & M & Sg & E & Hc).
  destruct (with_signal_loop_frame df O C V M Sg E Hc)
    as (df' & Hws & Hn & Hidx & _ & Hlf).
  destruct (run_bars_seq_invariant Q df' _ O (nrows df) (nrows df - 1)
              initial_portfolio Hlf) as (st & Hrun & HQ); [lia|done| |].
  - intros i sig price ts st Hi _ Hp Hts. rewrite Hidx in Hts.
    eapply Hstep; try done. by destruct Hc.
  - exists df', st. split; [done|]. split; [|done].
    unfold simulate. by rewrite Hn.
Qed.



Lemma expected_side_even k : Nat.even k = true → expected_side k = buy.
Proof. unfold expected_side. by intros ->. Qed.

Lemma expected_side_odd k : Nat.even k = false → expected_side k = sell.
Proof. unfold expected_side. by intros ->. Qed.

Lemma even_length_snoc {A} (l : list A) x :
  Nat.even (length (l ++ [x])) = negb (Nat.even (length l)).
Proof.
  rewrite length_app. simpl. rewrite Nat.add_1_r, Nat.even_succ.
  by rewrite <-Nat.negb_even.
Qed.

Lemma log_snoc (log : list trade) sd ts (q : Qc) :
  0 < q → sd = expected_side (length log) →
  (∀ k t, log !! k = Some t →
          trade_side t = expected_side k ∧ positive_number (trade_price t)) →
  ∀ k t, (log ++ [(sd, ts, Fin q)]) !! k = Some t →
         trade_side t = expected_side k ∧ positive_number (trade_price t).
Proof.
  intros Hq Hsd Hlog k t Hk.
  apply lookup_app_Some in Hk as [Hk | [Hge Hk]]; [by apply Hlog|].
  apply list_lookup_singleton_Some in Hk as [Hk <-].
  replace k with (length log) by lia.
  split; [done|]. by exists q.
Qed.

Lemma bar_update_alternating sig price ts st :
  isinf price = false → alternating_state st →
  alternating_state (bar_update sig price ts st).
Proof.
  intros Hinf Hold. pose proof Hold as [Hlog Hst].
  unfold bar_update. fold (invalid_fill price).
  destruct Hst as [(Hev & Hpos & c & Hc & Hc0) | (Hev & Hc & p & Hp & Hp0)].
  - rewrite Hpos. change (feqb (num 0) (num 0)) with true.
    change (fgt (num 0) (num 0)) with false.
    rewrite andb_true_r, andb_false_r.
    destruct (feqb sig (num 1)); [|exact Hold].
    destruct (invalid_fill price) eqn:Hv; [exact Hold|].
    destruct (valid_fill_positive price Hv Hinf) as (q & -> & Hq).
    split; cbn [trades cash position].
    + apply log_snoc; [exact Hq| |exact Hlog]. by rewrite expected_side_even.
    + right. rewrite even_length_snoc, Hev. split; [reflexivity|].
      split; [reflexivity|].
      rewrite Hc, fdiv_fin by (by apply Qc_pos_ne_0).
      eexists. split; [reflexivity|]. by apply Qc_div_pos.
  - rewrite Hp.
    assert (feqb (Fin p) (num 0) = false) as ->.
    { apply bool_decide_eq_false. rewrite zq_0. by apply Qc_pos_ne_0. }
    assert (fgt (Fin p) (num 0) = true) as ->.
    { apply bool_decide_eq_true. by rewrite zq_0. }
    rewrite andb_false_r, andb_true_r.
    destruct (feqb sig (num (-1))); [|exact Hold].
    destruct (invalid_fill price) eqn:Hv; [exact Hold|].
    destruct (valid_fill_positive price Hv Hinf) as (q & -> & Hq).
    split; cbn [trades cash position].
    + apply log_snoc; [exact Hq| |exact Hlog]. by rewrite expected_side_odd.
    + left. rewrite even_length_snoc, Hev. split; [reflexivity|].
      split; [reflexivity|].
      cbn [fmul]. eexists. split; [reflexivity|]. by apply Qcmult_pos_pos.
Qed.

Lemma trade_log_alternates_state df :
  backtest_frame df = true → col_no_inf df "open" = true →
  ∃ df' st, with_signal df = Some df' ∧ simulate df' = Some st ∧
            alternating_state st.
Proof.
  intros Hbf Hinf.
  destruct (simulate_invariant (λ _ st, alternating_state st) df Hbf)
    as (df' & st & Hws & Hsim & Halt).
  - split; [done|]. left. split; [done|]. split; [done|].
    exists (zq 100000). split; [done|]. by apply zq_pos.
  - intros O HO i sig price ts st0 _ Hp _.
    apply bar_update_alternating.
    by eapply col_no_inf_lookup.
  - by exists df', st.
Qed.


Lemma bar_update_time_order idx i sig price ts st :
  StronglySorted Z.lt idx → idx !! (i + 1)%nat = Some ts →
  log_in_time_order idx i st →
  log_in_time_order idx (S i) (bar_update sig price ts st).
Proof.
  intros Hidx Hts [Hsorted Hpos].
  assert (Forall (λ t, ∃ pos, (1 ≤ pos ≤ S i)%nat
                              ∧ idx !! pos = Some (trade_time t)) (trades st))
    as Hpos'.
  { eapply Forall_impl; [exact Hpos|]. intros t (pos & Hle & Hl).
    exists pos. split; [lia|done]. }
  unfold log_in_time_order.
  destruct (bar_update_trades sig price ts st) as [->|(_ & sd & ->)];
    [by split|].
  split.
  - rewrite fmap_app. apply StronglySorted_app_2; [|done|].
    + intros x1 x2 Hx1 Hx2. apply list_elem_of_fmap in Hx1 as (t & -> & Ht).
      rewrite Forall_forall in Hpos. destruct (Hpos t Ht) as (pos & Hle & Hl).
      apply list_elem_of_singleton in Hx2 as ->. cbn [fmap list_fmap].
      apply (StronglySorted_lookup_lt idx pos (i + 1) _ _ Hidx Hl Hts). lia.
    + repeat constructor.
  - apply Forall_app. split; [done|]. constructor; [|done].
    exists (i + 1)%nat. split; [lia|done].
Qed.

(** X4: on an index in strictly increasing order the timestamps of the
    trade log increase strictly, and each is the timestamp of a row after
    the first: a trade is filled at the bar that follows its signal. *)
Theorem trades_in_time_order df :
  backtest_frame df = true → StronglySorted Z.lt (index df) →
  ∃ df' st, with_signal df = Some df' ∧ simulate df' = Some st ∧
    StronglySorted Z.lt (trade_time <$> trades st) ∧
    Forall (λ t, ∃ pos, (1 ≤ pos < nrows df)%nat
                        ∧ index df !! pos = Some (trade_time t)) (trades st).
Proof.
  intros Hbf Hidx.
  destruct (simulate_invariant (λ i st, log_in_time_order (index df) i st) df Hbf)
    as (df' & st & Hws & Hsim & Hsorted & Hpos).
  - split; [constructor|constructor].
  - intros O _ i sig price ts st0 _ _ Hts. by apply bar_update_time_order.
  - exists df', st. split; [done|]. split; [done|]. split; [done|].
    eapply Forall_impl; [exact Hpos|]. intros t (pos & Hle & Hl).
    exists pos. split; [|done]. apply lookup_lt_Some in Hl. unfold nrows. lia.
Qed.

(** X5: the backtest raises [KeyError] when one of the columns [volume],
    [MACD], [MACD_signal], [close], [EMA_10] is absent. *)
Theorem safe_backtest_missing_column df name :
  name ∈ ["volume"; "MACD"; "MACD_signal"; "close"; "EMA_10"] →
  getitem df name = None → safe_backtest df = None.
Proof.
  intros Hname Hnone. unfold safe_backtest.
  assert (with_signal df = None) as ->; [|done].
  unfold with_signal, loc_set, setitem_scalar.
  destruct (getitem df "volume") as [V|] eqn:HV; [|done].
  cbn [mbind option_bind]. rewrite !getitem_setitem. col_decide.
  destruct (getitem df "MACD") as [M|] eqn:HM; [|done].
  destruct (getitem df "MACD_signal") as [Sg|] eqn:HS; [|done].
  destruct (getitem df "close") as [C|] eqn:HC; [|done].
  destruct (getitem df "EMA_10") as [E|] eqn:HE; [|done].
  rewrite !elem_of_cons in Hname.
  destruct Hname as [->|[->|[->|[->|[->|Hn]]]]];
    [congruence.. | by apply elem_of_nil in Hn].
Qed.

Lemma fadd_num_0_l_any x : fadd (num 0) x = x.
Proof. destruct x as [| |q|]; try done. apply fadd_num_0_l. Qed.

(** X6: on opens without infinite values the final portfolio value is
    the cash when the number of trades is even, and the open position
    marked at the last close when it is odd. *)
Theorem final_value_by_parity df :
  backtest_frame df = true → col_no_inf df "open" = true →
  ∃ df' st r,
    with_signal df = Some df' ∧ simulate df' = Some st ∧
    safe_backtest df = Some r ∧ n_trades r = length (trades st) ∧
    (Nat.even (n_trades r) = true → final_portfolio_value r = cash st) ∧
    (Nat.even (n_trades r) = false →
     ∃ C c, getitem df "close" = Some C ∧ last C = Some c ∧
            final_portfolio_value r = fmul (position st) c).
Proof.
  intros Hbf Hinf.
  destruct (trade_log_alternates_state df Hbf Hinf)
    as (df' & st & Hws & Hsim & Halt).
  destruct (safe_backtest_runs df Hbf)
    as (df'' & st' & final & wins & Hws' & Hsim' & Hfinal & _ & _ & Hr).
  assert (df'' = df') as -> by congruence.
  assert (st' = st) as -> by congruence.
  destruct (backtest_frame_cols df Hbf) as (O & C & V & M & Sg & E & Hc).
  destruct (with_signal_loop_frame df O C V M Sg E Hc)
    as (df'' & Hws'' & _ & _ & HC & _).
  assert (df'' = df') as -> by congruence.
  eexists df', st, _. split; [done|]. split; [done|]. split; [exact Hr|].
  cbn [n_trades final_portfolio_value]. split; [done|].
  unfold final_value in Hfinal.
  destruct Halt as [_ [(Hev & Hpos & c & Hcash & _) | (Hev & Hcash & p & Hp & Hp0)]].
  - split; [|congruence]. intros _.
    rewrite Hpos in Hfinal. change (truthy (num 0)) with false in Hfinal.
    cbn [mbind option_bind] in Hfinal. injection Hfinal as <-.
    rewrite Hcash. apply fadd_num_0_r.
  - split; [congruence|]. intros _.
    rewrite Hp in Hfinal |- *.
    assert (truthy (Fin p) = true) as Ht.
    { unfold truthy. apply negb_true_iff, bool_decide_eq_false.
      rewrite zq_0. by apply Qc_pos_ne_0. }
    rewrite Ht, HC in Hfinal. cbn [mbind option_bind] in Hfinal.
    unfold iat_last in Hfinal.
    destruct (last C) as [c|] eqn:Hl; [|done].
    cbn [mbind option_bind] in Hfinal. injection Hfinal as <-.
    exists C, c. split; [by destruct Hc|]. split; [done|].
    rewrite Hcash. apply fadd_num_0_l_any.
Qed.

Lemma no_signal_no_trades_witness :
  safe_backtest sample_flat = Some (Result (num 100000) 0 (num 0) []).
Proof.
  apply (no_signal_no_trades sample_flat
           (default sample_flat (with_signal sample_flat))
           (floats [0; 0; 0]%Z)).
  - vm_compute. reflexivity.
  - vm_compute. reflexivity.
  - vm_compute. reflexivity.
  - intros t Ht. change (nrows sample_flat) with 3%nat in Ht.
    destruct t as [|[|t]]; try reflexivity. lia.
Defined.



Lemma trades_in_time_order_witness :
  ∃ df' st, with_signal sample_open_position = Some df' ∧
    simulate df' = Some st ∧
    StronglySorted Z.lt (trade_time <$> trades st) ∧
    Forall (λ t, ∃ pos, (1 ≤ pos < nrows sample_open_position)%nat
                        ∧ index sample_open_position !! pos
                          = Some (trade_time t)) (trades st).
Proof.
  apply (trades_in_time_order sample_open_position).
  - vm_compute. reflexivity.
  - repeat constructor.
Defined.

Lemma safe_backtest_missing_column_witness :
  safe_backtest sample_bars = None.
Proof.
  apply (safe_backtest_missing_column sample_bars "MACD").
  - set_solver.
  - vm_compute. reflexivity.
Defined.

Lemma final_value_by_parity_witness :
  ∃ df' st r,
    with_signal sample_open_position = Some df' ∧ simulate df' = Some st ∧
    safe_backtest sample_open_position = Some r ∧
    n_trades r = length (trades st) ∧
    (Nat.even (n_trades r) = true → final_portfolio_value r = cash st) ∧
    (Nat.even (n_trades r) = false →
     ∃ C c, getitem sample_open_position "close" = Some C ∧ last C = Some c ∧
            final_portfolio_value r = fmul (position st) c).
Proof.
  apply (final_value_by_parity sample_open_position); vm_compute; reflexivity.
Defined.

(** ** More on the indicator engine *)

(** The engine returns as soon as the four columns it reads are there,
    whatever their lengths. *)
Lemma engine_shape df hi lo cl vo :
  getitem df "high" = Some hi → getitem df "low" = Some lo →
  getitem df "close" = Some cl → getitem df "volume" = Some vo →
  ∃ rsi ml ms mh e10 e100 vwap,
    compute_all_indicators df
    = Some (frame_replace_inf
              (indicator_columns rsi ml ms mh e10 e100 vwap
                 (signed_volume_as (volume_dtype df) cl vo)
                 (cumsum_as (result_type int64 (volume_dtype df))
                    (signed_volume_as (volume_dtype df) cl vo))
                 (true_range hi lo cl)
                 (rolling_mean 14 1 (true_range hi lo cl)) df)).
Proof.
  intros Hhi Hlo Hcl Hvo.
  destruct (compute_rsi_runs cl 14) as (rsi & Hrsi & _); [lia|].
  eexists rsi, _, _, _, _, _, _.
  unfold compute_all_indicators, macd, compute_vwap.
  repeat first
    [ rewrite getitem_setitem
    | rewrite volume_dtype_setitem
    | rewrite Hcl | rewrite Hhi | rewrite Hlo | rewrite Hvo | rewrite Hrsi
    | progress simpl ].
  reflexivity.
Qed.

Lemma engine_needs df out :
  compute_all_indicators df = Some out →
  ∃ hi lo cl vo,
    getitem df "high" = Some hi ∧ getitem df "low" = Some lo ∧
    getitem df "close" = Some cl ∧ getitem df "volume" = Some vo.
Proof.
  unfold compute_all_indicators, macd, compute_vwap.
  destruct (getitem df "close") as [cl|] eqn:Hcl; [|done].
  destruct (compute_rsi_runs cl 14) as (rsi & Hrsi & _); [lia|].
  repeat first
    [ rewrite getitem_setitem
    | rewrite volume_dtype_setitem
    | rewrite Hcl | rewrite Hrsi
    | progress simpl ].
  destruct (getitem df "high") as [hi|] eqn:Hhi; [|done].
  destruct (getitem df "low") as [lo|] eqn:Hlo; [|done].
  destruct (getitem df "volume") as [vo|] eqn:Hvo; [|done].
  intros _. by exists hi, lo, cl, vo.
Qed.

(** X8: the engine returns exactly when the frame has the columns
    [close], [high], [low] and [volume]; it raises [KeyError] otherwise.
    It does not read [open], and the columns need not be as long as the
    index. *)
Theorem engine_runs_iff df :
  is_Some (compute_all_indicators df) ↔
  is_Some (getitem df "close") ∧ is_Some (getitem df "high") ∧
  is_Some (getitem df "low") ∧ is_Some (getitem df "volume").
Proof.
  split.
  - intros [out Hout].
    destruct (engine_needs df out Hout) as (hi & lo & cl & vo & -> & -> & -> & ->).
    by repeat split.
  - intros ([cl Hcl] & [hi Hhi] & [lo Hlo] & [vo Hvo]).
    destruct (engine_shape df hi lo cl vo) as (? & ? & ? & ? & ? & ? & ? & ->);
      done.
Qed.

Lemma dom_setitem name s df :
  dom (columns (setitem name s df)) = {[ name ]} ∪ dom (columns df).
Proof. unfold setitem. cbn [columns]. apply dom_insert_L. Qed.

(** X7: the frame the engine returns has the columns of its input and
    the ten indicator columns, no other; it has the index of the input and
    the dtype of its volume column, and every column that is not an
    indicator is the input column with its infinities replaced. *)
Theorem engine_columns df out :
  compute_all_indicators df = Some out →
  dom (columns out) = dom (columns df) ∪ list_to_set indicator_names ∧
  index out = index df ∧ volume_dtype out = volume_dtype df ∧
  ∀ name, name ∉ indicator_names →
          getitem out name = replace_inf <$> getitem df name.
Proof.
  intros Hout.
  destruct (engine_needs df out Hout) as (hi & lo & cl & vo & Hhi & Hlo & Hcl & Hvo).
  destruct (engine_shape df hi lo cl vo Hhi Hlo Hcl Hvo)
    as (rsi & ml & ms & mh & e10 & e100 & vwap & Heq).
  rewrite Heq in Hout. injection Hout as <-.
  split; [|split; [done|split; [done|]]].
  - unfold frame_replace_inf. cbn [columns]. rewrite dom_fmap_L.
    unfold indicator_columns. rewrite !dom_setitem.
    unfold indicator_names. cbn [list_to_set foldr].
    apply set_eq. intros x.
    rewrite !elem_of_union, !elem_of_singleton, elem_of_empty. tauto.
  - intros name Hname. rewrite getitem_replace_inf, getitem_indicator_columns.
    unfold indicator_names in Hname. rewrite !not_elem_of_cons in Hname.
    destruct Hname as (? & ? & ? & ? & ? & ? & ? & ? & ? & ? & _).
    by col_decide.
Qed.

Lemma engine_columns_witness :
  ∃ out,
    compute_all_indicators sample_bars = Some out ∧
    dom (columns out)
    = dom (columns sample_bars) ∪ list_to_set indicator_names ∧
    index out = index sample_bars ∧
    volume_dtype out = volume_dtype sample_bars ∧
    ∀ name, name ∉ indicator_names →
            getitem out name = replace_inf <$> getitem sample_bars name.
Proof.
  destruct (engine_shape sample_bars
              (floats [12; 13; 25; 31]%Z) (floats [9; 8; 19; 29]%Z)
              (floats [11; 12; 22; 30]%Z) (floats [100; 200; 50; 70]%Z))
    as (rsi & ml & ms & mh & e10 & e100 & vwap & Heq);
    [vm_compute; reflexivity..|].
  eexists. split; [exact Heq|].
  exact (engine_columns sample_bars _ Heq).
Defined.




Lemma Qc_one_minus_nonneg (a : Qc) : a ≤ 1 → 0 ≤ 1 - a.
Proof. intros H. apply Qcle_minus_iff in H. exact H. Qed.

(** A weighted mean of two numbers lies between them. *)
Lemma convex_bounds (a lo hi x p : Qc) :
  0 ≤ a → a ≤ 1 → lo ≤ x ≤ hi → lo ≤ p ≤ hi →
  lo ≤ a * x + (1 - a) * p ≤ hi.
Proof.
  intros Ha0 Ha1 [Hx1 Hx2] [Hp1 Hp2].
  pose proof (Qc_one_minus_nonneg a Ha1) as Hb.
  split.
  - replace lo with (a * lo + (1 - a) * lo) by ring.
    apply Qcplus_le_compat; by apply Qcmult_le_mono_nonneg_l.
  - replace hi with (a * hi + (1 - a) * hi) by ring.
    apply Qcplus_le_compat; by apply Qcmult_le_mono_nonneg_l.
Qed.

Lemma ema_rec_from_bounds (a lo hi prev : Qc) xs :
  0 ≤ a → a ≤ 1 → lo ≤ prev ≤ hi → Forall (λ x, lo ≤ x ≤ hi) xs →
  Forall (λ e, lo ≤ e ≤ hi) (ema_rec_from a prev xs).
Proof.
  intros Ha0 Ha1 Hp Hxs. revert prev Hp.
  induction Hxs as [|x xs Hx _ IH]; intros prev Hp; simpl; [constructor|].
  pose proof (convex_bounds a lo hi x prev Ha0 Ha1 Hx Hp) as He.
  constructor; [done|]. by apply IH.
Qed.

Lemma span_alpha_unit (s : Z) :
  (1 ≤ s)%Z → 0 ≤ zq 2 / (zq s + 1) ∧ zq 2 / (zq s + 1) ≤ 1.
Proof.
  intros Hs.
  assert (zq s + 1 = zq (s + 1)) as -> by (by rewrite zq_add, zq_1).
  assert (0 < zq (s + 1)) by (apply zq_pos; lia).
  split.
  - apply Qc_div_nonneg; [|done]. rewrite <-zq_0. apply zq_le. lia.
  - apply Qc_div_le_1; [done|]. apply zq_le. lia.
Qed.

Lemma ema_fin (xs : list Qc) (s : Z) :
  (1 ≤ s)%Z →
  ema (Fin <$> xs) s = Some (Fin <$> ema_rec (zq 2 / (zq s + 1)) xs).
Proof.
  intros Hs. unfold ema, ewm_mean_span, com_of_span.
  rewrite decide_False by lia. cbn [mbind option_bind].
  by rewrite ewm_mean_com_fin, alpha_of_span.
Qed.

(** X10: the exponential moving average of a series of numbers stays
    within the bounds of the series: when every input lies in [lo, hi], so
    does every average, for every span [s >= 1]. *)
Theorem ema_between_bounds (xs : list Qc) (s : Z) (lo hi : Qc) :
  (1 ≤ s)%Z → Forall (λ x, lo ≤ x ≤ hi) xs →
  ∃ ys : list Qc,
    ema (Fin <$> xs) s = Some (Fin <$> ys) ∧ length ys = length xs ∧
    Forall (λ y, lo ≤ y ≤ hi) ys.
Proof.
  intros Hs Hxs. exists (ema_rec (zq 2 / (zq s + 1)) xs).
  split; [by apply ema_fin|]. split; [apply length_ema_rec|].
  destruct (span_alpha_unit s Hs) as [Ha0 Ha1].
  destruct Hxs as [|x xs Hx Hxs]; simpl; [constructor|].
  constructor; [done|]. by apply ema_rec_from_bounds.
Qed.

Lemma ema_between_bounds_witness :
  ∃ ys : list Qc,
    ema (Fin <$> (zq <$> [10; 12; 11; 14]%Z)) 10 = Some (Fin <$> ys) ∧
    length ys = length (zq <$> [10; 12; 11; 14]%Z) ∧
    Forall (λ y, zq 10 ≤ y ≤ zq 14) ys.
Proof.
  apply (ema_between_bounds (zq <$> [10; 12; 11; 14]%Z) 10 (zq 10) (zq 14)).
  - lia.
  - repeat constructor; apply zq_le; lia.
Defined.

Lemma ema_rec_from_const (a c : Qc) n :
  ema_rec_from a c (replicate n c) = replicate n c.
Proof.
  induction n as [|n IH]; simpl; [done|].
  replace (a * c + (1 - a) * c) with c by ring. by rewrite IH.
Qed.

Lemma ema_const (c : Qc) n (s : Z) :
  (1 ≤ s)%Z → ema (replicate n (Fin c)) s = Some (replicate n (Fin c)).
Proof.
  intros Hs. rewrite <-fmap_replicate, ema_fin by done. f_equal.
  destruct n as [|n]; [done|]. simpl. by rewrite ema_rec_from_const.
Qed.

Lemma ssub_const (c : Qc) n :
  ssub (replicate n (Fin c)) (replicate n (Fin c)) = replicate n (num 0).
Proof.
  unfold ssub. rewrite zip_with_replicate. f_equal.
  unfold fsub, num. cbn [fneg fadd]. f_equal. rewrite zq_0. ring.
Qed.

(** X11: on a constant close series the three lines of [macd], the MACD
    line, its signal line and the histogram, are [0] at every bar. *)
Theorem macd_constant_close df (c : Qc) n :
  getitem df "close" = Some (replicate n (Fin c)) →
  macd df 12 26 9
  = Some (replicate n (num 0), replicate n (num 0), replicate n (num 0)).
Proof.
  intros Hcl. unfold macd. rewrite Hcl. cbn [mbind option_bind].
  rewrite !ema_const by lia. cbn [mbind option_bind].
  rewrite ssub_const. unfold num. rewrite ema_const by lia.
  cbn [mbind option_bind]. by rewrite ssub_const.
Qed.

Lemma macd_constant_close_witness :
  macd (Frame [1; 2; 3]%Z {[ "close" := replicate 3 (Fin (zq 7)) ]} float64)
       12 26 9
  = Some (replicate 3 (num 0), replicate 3 (num 0), replicate 3 (num 0)).
Proof.
  apply (macd_constant_close _ (zq 7) 3). reflexivity.
Defined.

(** ** The RSI of a rising series and the true range *)

(** The down-move of a bar whose close did not fall is [0]. *)
Lemma down_of_rise (d : Qc) :
  0 ≤ d →
  fmul (num (-1))
       (if isnan (if fgt (Fin d) (num 0) then num 0 else Fin d) then num 0
        else if fgt (Fin d) (num 0) then num 0 else Fin d)
  = num 0.
Proof.
  intros Hd. unfold fgt, flt, num. rewrite zq_0.
  destruct (bool_decide (0 < d)) eqn:Hpos; cbn [isnan fmul]; f_equal;
    try ring.
  apply bool_decide_eq_false in Hpos. apply Qcle_ngt in Hpos.
  assert (d = 0) as -> by (by apply (anti_symm Qcle)).
  ring.
Qed.

Lemma rsi_down_never_falling (xs : list Qc) :
  (∀ t x y, xs !! t = Some x → xs !! S t = Some y → x ≤ y) →
  rsi_down (Fin <$> xs) = replicate (length xs) (num 0).
Proof.
  intros Hup. apply list_eq. intros t.
  unfold rsi_down, scalar_mul, fillna, clip_upper.
  rewrite !list_lookup_fmap.
  destruct (decide (t < length xs)%nat) as [Ht|Ht].
  - rewrite lookup_replicate_2 by done.
    destruct (lookup_lt_is_Some_2 xs t Ht) as [y Hy].
    destruct t as [|t].
    + rewrite (lookup_diff_0 _ (Fin y)) by (by rewrite list_lookup_fmap, Hy).
      cbn [fmap option_fmap option_map fgt flt isnan]. f_equal.
      unfold num. cbn [fmul]. f_equal. rewrite zq_0. ring.
    + destruct (lookup_lt_is_Some_2 xs t) as [x Hx]; [lia|].
      rewrite (lookup_diff_S _ t (Fin x) (Fin y))
        by (by rewrite list_lookup_fmap, ?Hx, ?Hy).
      cbn [fmap option_fmap option_map]. f_equal.
      change (fsub (Fin y) (Fin x)) with (Fin (y + - x)).
      apply down_of_rise. apply (proj1 (Qcle_minus_iff x y)).
      exact (Hup t x y Hx Hy).
  - rewrite (lookup_ge_None_2 (diff _))
      by (rewrite length_diff, length_fmap; lia).
    symmetry. apply lookup_replicate_None. lia.
Qed.

Lemma zip_rsi_value_zero_down up n :
  length up = n → zip_with rsi_value up (replicate n (num 0)) = replicate n (num 50).
Proof.
  intros <-. induction up as [|u up IH]; simpl; [done|].
  by rewrite rsi_value_zero_down, IH.
Qed.

Lemma ewm_mean_com_zeros com n :
  ewm_mean_com com (replicate n (num 0)) = replicate n (num 0).
Proof.
  unfold num. rewrite <-fmap_replicate, ewm_mean_com_fin. f_equal.
  destruct n as [|n]; [done|]. simpl. by rewrite ema_rec_from_const.
Qed.

(** X12: on a series of numbers that never falls the RSI is [50] at every
    bar, not [100]: the smoothed down-move is [0] everywhere, the ratio is
    a missing value and line 27 fills it with [50]. *)
Theorem rsi_never_falling (xs : list Qc) :
  (∀ t x y, xs !! t = Some x → xs !! S t = Some y → x ≤ y) →
  compute_rsi (Fin <$> xs) 14 = Some (replicate (length xs) (num 50)).
Proof.
  intros Hup.
  destruct (decide (Z.of_nat (length (Fin <$> xs)) < 14 + 1)%Z) as [Hshort|Hlong].
  - unfold compute_rsi. rewrite decide_True by done.
    by rewrite length_fmap.
  - destruct (compute_rsi_long (Fin <$> xs) 14 ltac:(lia) Hlong)
      as (alpha & up & down & _ & _ & Hdown & _ & _ & Lup & _ & ->).
    rewrite length_fmap in Lup.
    rewrite (rsi_down_never_falling xs Hup) in Hdown.
    unfold ewm_mean_alpha in Hdown.
    destruct (com_of_alpha alpha) as [com|]; [|done].
    cbn [mbind option_bind] in Hdown. injection Hdown as <-.
    rewrite ewm_mean_com_zeros. f_equal. by apply zip_rsi_value_zero_down.
Qed.

Lemma rsi_never_falling_witness :
  compute_rsi (Fin <$> sample_rising) 14
  = Some (replicate (length sample_rising) (num 50)).
Proof.
  apply (rsi_never_falling sample_rising).
  intros t x y Hx Hy. unfold sample_rising in *.
  do 16 (destruct t as [|t];
         [cbn in Hx, Hy; try discriminate Hy;
          injection Hx as <-; injection Hy as <-; apply zq_le; lia|]).
  done.
Defined.

Lemma qabs_nonneg a : 0 ≤ qabs a.
Proof.
  unfold qabs. case_decide as H.
  - apply Qclt_le_weak in H. apply (Qcopp_le_compat a 0) in H. exact H.
  - by apply Qcle_ngt.
Qed.

Lemma qmax_ge_l a b : a ≤ qmax a b.
Proof.
  unfold qmax. case_decide as H; [by apply Qclt_le_weak|done].
Qed.

Lemma qmax_ge_r a b : b ≤ qmax a b.
Proof. unfold qmax. case_decide as H; [done|by apply Qcle_ngt]. Qed.

Lemma fabs_fin a : fabs (Fin a) = Fin (qabs a).
Proof. done. Qed.

Lemma fmax_skipna_fin a b : fmax_skipna (Fin a) (Fin b) = Fin (qmax a b).
Proof.
  unfold fmax_skipna, qmax. cbn [isnan flt].
  case_bool_decide; by case_decide.
Qed.

Lemma lookup_shift_S (s : series) t x :
  s !! t = Some x → (S t < length s)%nat → shift s !! S t = Some x.
Proof.
  intros Hx Ht. destruct s as [|y s]; [done|]. unfold shift.
  change ((NaN :: removelast (y :: s)) !! S t) with (removelast (y :: s) !! t).
  rewrite removelast_firstn_len.
  change (firstn (pred (length (y :: s))) (y :: s))
    with (take (pred (length (y :: s))) (y :: s)).
  rewrite lookup_take_lt by (simpl in *; lia). done.
Qed.

(** X13: from the second bar on, on numbers, the true range is the
    maximum of [high - low], [|high - previous close|] and
    [|low - previous close|]; it is not negative and at least
    [high - low]. *)
Theorem true_range_after_first_bar (hs ls cs : list Qc) t (h l c0 c1 : Qc) :
  hs !! S t = Some h → ls !! S t = Some l →
  cs !! t = Some c0 → cs !! S t = Some c1 →
  ∃ q,
    true_range (Fin <$> hs) (Fin <$> ls) (Fin <$> cs) !! S t = Some (Fin q) ∧
    q = qmax (qmax (h - l) (qabs (h - c0))) (qabs (l - c0)) ∧
    0 ≤ q ∧ h - l ≤ q.
Proof.
  intros Hh Hl Hc0 Hc1. eexists. split; [|split; [reflexivity|]].
  - assert (shift (Fin <$> cs) !! S t = Some (Fin c0)) as Hshift.
    { apply lookup_shift_S; [by rewrite list_lookup_fmap, Hc0|].
      rewrite length_fmap. by apply lookup_lt_Some in Hc1. }
    unfold true_range, row_max3, sabs, ssub.
    rewrite !lookup_zip_with, !list_lookup_fmap, !lookup_zip_with.
    rewrite Hshift, !list_lookup_fmap, Hh, Hl.
    cbn [fmap option_fmap option_map mbind option_bind].
    change (fsub (Fin h) (Fin l)) with (Fin (h - l)).
    change (fsub (Fin h) (Fin c0)) with (Fin (h - c0)).
    change (fsub (Fin l) (Fin c0)) with (Fin (l - c0)).
    by rewrite !fabs_fin, !fmax_skipna_fin.
  - split.
    + etrans; [apply (qabs_nonneg (l - c0))|apply qmax_ge_r].
    + etrans; [apply qmax_ge_l|]. etrans; [apply qmax_ge_l|]. done.
Qed.

Lemma true_range_after_first_bar_witness :
  ∃ q,
    true_range (Fin <$> (zq <$> [12; 13]%Z)) (Fin <$> (zq <$> [9; 8]%Z))
               (Fin <$> (zq <$> [11; 12]%Z)) !! 1%nat = Some (Fin q) ∧
    q = qmax (qmax (zq 13 - zq 8) (qabs (zq 13 - zq 11))) (qabs (zq 8 - zq 11)) ∧
    0 ≤ q ∧ zq 13 - zq 8 ≤ q.
Proof.
  apply (true_range_after_first_bar (zq <$> [12; 13]%Z) (zq <$> [9; 8]%Z)
           (zq <$> [11; 12]%Z) 0 (zq 13) (zq 8) (zq 11) (zq 12));
    reflexivity.
Defined.
